(** * The Eghact native microservice orchestrator

    A shallow embedding of [src/microservices/native-orchestrator.c]: the
    service registry, the load balancer, the health checker, the message
    queue with its dispatcher, and the circuit breaker.

    Conventions of the embedding.
    - A C [int] is a [Z]; [x++] is [int_incr], which wraps at 32 bits, and
      [%] is [Z.rem].  What depends on the round-robin counter is stated
      for a counter that stays between 0 and [INT_MAX].
    - The registry's singly linked list of [ServiceNode] is a Rocq list in
      list order (the head of the C list is the head of the Rocq list).  A
      [ServiceNode*] into it is the position of the node in that list.
    - The message queue is kept as it is in C: cells on a heap, linked by
      [next] pointers, with the [head] and [tail] pointers of [MessageQueue].
      A [Message*] is a [Z], [NULL] is [0].
    - A read or a write through a pointer that addresses nothing, and an
      array read out of bounds, is [Fault].
    - The code between [pthread_mutex_lock] and [pthread_mutex_unlock] runs
      as one step.  Only [health_check_worker] records the lock operations
      themselves, next to its probes. *)

From stdpp Require Import gmap strings list fin_maps sorting pretty.
From Stdlib Require Import ZArith Lia.

Local Open Scope Z_scope.

(** ** Outcomes of code that may dereference a bad pointer *)

Inductive outcome (A : Type) : Type :=
| Done (a : A)
| Fault.
Arguments Done {A} a.
Arguments Fault {A}.

Global Instance outcome_ret : MRet outcome := @Done.
Global Instance outcome_bind : MBind outcome :=
  λ A B f m, match m with Done a => f a | Fault => Fault end.
Global Instance outcome_fmap : FMap outcome :=
  λ A B f m, match m with Done a => Done (f a) | Fault => Fault end.

(** ** C integers *)

Definition INT_MAX : Z := 2147483647.
Definition INT_MIN : Z := -2147483648.

(** Two's complement wrap-around of a 32-bit [int]. *)
Definition wrap_int (z : Z) : Z := (z - INT_MIN) mod 2 ^ 32 + INT_MIN.

(** [x++] on an [int]. *)
Definition int_incr (x : Z) : Z := wrap_int (x + 1).

(** [time_t] is a signed 64-bit integer; [a - b] on two of them. *)
Definition time_diff (a b : Z) : Z := (a - b + 2 ^ 63) mod 2 ^ 64 - 2 ^ 63.

(** [arr[i]] for an [int] index. *)
Definition array_get {A : Type} (arr : list A) (i : Z) : outcome A :=
  if i <? 0 then Fault
  else match arr !! Z.to_nat i with
       | Some a => Done a
       | None => Fault
       end.

(** ** Service registry *)

Record ServiceNode : Type := mkServiceNode {
  service_id : string;
  service_name : string;
  host : string;
  port : Z;
  health_status : Z;
  load : Z
}.

Record ServiceRegistry : Type := mkServiceRegistry {
  services : list ServiceNode;
  num_services : Z
}.

(** A [ServiceNode*]: [None] is the null pointer. *)
Abbreviation NodePtr := (option nat).

(** [*p] for a node pointer. *)
Definition node_at (nodes : list ServiceNode) (p : nat) : outcome ServiceNode :=
  match nodes !! p with
  | Some n => Done n
  | None => Fault
  end.

Definition set_health (n : ServiceNode) (h : Z) : ServiceNode :=
  mkServiceNode (service_id n) (service_name n) (host n) (port n) h (load n).

Definition set_load (n : ServiceNode) (l : Z) : ServiceNode :=
  mkServiceNode (service_id n) (service_name n) (host n) (port n)
    (health_status n) l.

(** Modelled from the spec: [generate_service_id] is declared in
    eghact-core.h, which is not among the sources.  The spec asks of it "a
    fresh unique id" ("identifier (unique, generated at registration)"): the
    generator keeps the set of the ids it has handed out and answers with a
    string outside that set. *)
Definition generate_service_id (issued : gset string) : string * gset string :=
  let id := fresh issued in (id, {[ id ]} ∪ issued).

(** ** Message queue *)

Definition NULL : Z := 0.

Record Message : Type := mkMessage {
  from_service : string;
  to_service : string;
  payload : string;
  priority : Z;
  next : Z
}.

Record MessageQueue : Type := mkMessageQueue {
  head : Z;
  tail : Z
}.

Definition set_next (m : Message) (p : Z) : Message :=
  mkMessage (from_service m) (to_service m) (payload m) (priority m) p.

(** ** Load balancer *)

Inductive LoadBalancingStrategy : Type :=
| LB_ROUND_ROBIN
| LB_LEAST_CONNECTIONS
| LB_WEIGHTED
| LB_IP_HASH.

(** The [registry] field of the C struct aliases the orchestrator's
    registry; here the registry is passed next to the balancer. *)
Record LoadBalancer : Type := mkLoadBalancer {
  strategy : LoadBalancingStrategy;
  current_index : Z
}.

(** The test of the collecting loop:
    [strcmp(current->service_name, service_name) == 0 &&
     current->health_status == 1]. *)
Definition is_instance (name : string) (n : ServiceNode) : bool :=
  String.eqb (service_name n) name && (health_status n =? 1).

(** The collecting loop: the array [instances] of the pointers to the
    matching nodes, in list order.  [current] is the pointer to the first
    node of [nodes]. *)
Fixpoint collect_instances (name : string) (current : nat)
    (nodes : list ServiceNode) : list nat :=
  match nodes with
  | [] => []
  | n :: rest =>
      if is_instance name n
      then current :: collect_instances name (S current) rest
      else collect_instances name (S current) rest
  end.

(** The loop of [LB_LEAST_CONNECTIONS], over [instances[1..]]. *)
Fixpoint least_connections_loop (nodes : list ServiceNode)
    (rest : list nat) (selected : nat) : outcome nat :=
  match rest with
  | [] => Done selected
  | p :: rest' =>
      n ← node_at nodes p;
      s ← node_at nodes selected;
      least_connections_loop nodes rest'
        (if load n <? load s then p else selected)
  end.

(** [select_service_instance], between its lock and its unlock.  The
    array [instances] is taken to hold fewer than [INT_MAX] pointers, so
    that [num_instances] is its length. *)
Definition select_service_instance (lb : LoadBalancer) (name : string)
    (reg : ServiceRegistry)
    : outcome (NodePtr * LoadBalancer * ServiceRegistry) :=
  let instances := collect_instances name 0 (services reg) in
  let num_instances := Z.of_nat (length instances) in
  if 0 <? num_instances then
    '(selected, lb') ←
      match strategy lb with
      | LB_ROUND_ROBIN =>
          p ← array_get instances (Z.rem (current_index lb) num_instances);
          Done (Some p,
                mkLoadBalancer (strategy lb) (int_incr (current_index lb)))
      | LB_LEAST_CONNECTIONS =>
          first ← array_get instances 0;
          p ← least_connections_loop (services reg) (drop 1 instances) first;
          Done (Some p, lb)
      | LB_WEIGHTED => Done (None, lb)
      | LB_IP_HASH => Done (None, lb)
      end;
    match selected with
    | Some p =>
        n ← node_at (services reg) p;
        Done (Some p, lb',
              mkServiceRegistry
                (<[p := set_load n (int_incr (load n))]> (services reg))
                (num_services reg))
    | None => Done (None, lb', reg)
    end
  else Done (None, lb, reg).

(** ** The orchestrator and the runtime around it *)

Record EghactOrchestrator : Type := mkEghactOrchestrator {
  registry : ServiceRegistry;
  message_queue : MessageQueue;
  load_balancer : LoadBalancer
}.

(** What the orchestrator's functions reach besides the orchestrator
    struct: the message cells they [malloc] and [free], and the state of
    the id generator. *)
Record Runtime : Type := mkRuntime {
  orch : EghactOrchestrator;
  heap : gmap Z Message;
  issued : gset string
}.

(** The two [pthread_create] calls start the workers; their loop bodies are
    [health_check_iteration] and [message_dispatcher_iteration] below. *)
Definition eghact_orchestrator_init : EghactOrchestrator :=
  mkEghactOrchestrator
    (mkServiceRegistry [] 0)
    (mkMessageQueue NULL NULL)
    (mkLoadBalancer LB_ROUND_ROBIN 0).

Definition initial_runtime : Runtime :=
  mkRuntime eghact_orchestrator_init ∅ ∅.

Definition eghact_register_service (rt : Runtime) (name host : string)
    (port : Z) : Z * Runtime :=
  let '(id, issued') := generate_service_id (issued rt) in
  let node := mkServiceNode id name host port 1 0 in
  let reg := registry (orch rt) in
  (0,
   mkRuntime
     (mkEghactOrchestrator
        (mkServiceRegistry (node :: services reg) (int_incr (num_services reg)))
        (message_queue (orch rt))
        (load_balancer (orch rt)))
     (heap rt)
     issued').

Definition eghact_discover_service (o : EghactOrchestrator) (name : string)
    : outcome (NodePtr * EghactOrchestrator) :=
  '(selected, lb', reg') ←
    select_service_instance (load_balancer o) name (registry o);
  Done (selected, mkEghactOrchestrator reg' (message_queue o) lb').

(** The section of [eghact_send_message] under the queue lock: link the
    cell at [msg] behind the tail. *)
Definition enqueue (msg : Z) (h : gmap Z Message) (q : MessageQueue)
    : outcome (gmap Z Message * MessageQueue) :=
  if tail q =? NULL then Done (h, mkMessageQueue msg msg)
  else match h !! tail q with
       | Some t => Done (<[tail q := set_next t msg]> h,
                         mkMessageQueue (head q) msg)
       | None => Fault
       end.

(** [malloc] is the allocator: given the heap it answers with the address
    of the new cell.  The three [strdup] copies are the strings of the cell.
    [pthread_cond_signal] wakes the dispatcher; it changes no data. *)
Definition eghact_send_message (malloc : gmap Z Message → Z) (rt : Runtime)
    (from to body : string) : outcome (Z * Runtime) :=
  let msg := malloc (heap rt) in
  if msg =? NULL then Fault
  else
    let h := <[msg := mkMessage from to body 5 NULL]> (heap rt) in
    '(h', q') ← enqueue msg h (message_queue (orch rt));
    Done (0,
          mkRuntime
            (mkEghactOrchestrator (registry (orch rt)) q'
               (load_balancer (orch rt)))
            h' (issued rt)).

(** ** Health check worker *)

(** What the socket calls of one probe come to. *)
Inductive ProbeResult : Type :=
| ConnectFailed
| RecvFailed
| Response (response : string).

Definition probed_health (r : ProbeResult) : Z :=
  match r with
  | Response response => if String.eqb response "OK" then 1 else 0
  | RecvFailed => 0
  | ConnectFailed => 0
  end.

(** What the worker does to the registry lock and to the network, in
    program order. *)
Inductive HealthStep : Type :=
| RegistryLock
| RegistryUnlock
| Probe (host : string) (port : Z)
| Sleep (seconds : Z).

(** The inner [while (current)] loop. *)
Fixpoint health_check_nodes (probe : ServiceNode → ProbeResult)
    (nodes : list ServiceNode) : list ServiceNode * list HealthStep :=
  match nodes with
  | [] => ([], [])
  | current :: rest =>
      let checked := set_health current (probed_health (probe current)) in
      let '(rest', steps) := health_check_nodes probe rest in
      (checked :: rest', Probe (host current) (port current) :: steps)
  end.

(** One turn of the worker's [while (1)] loop. *)
Definition health_check_iteration (probe : ServiceNode → ProbeResult)
    (reg : ServiceRegistry) : ServiceRegistry * list HealthStep :=
  let '(nodes, steps) := health_check_nodes probe (services reg) in
  (mkServiceRegistry nodes (num_services reg),
   RegistryLock :: steps ++ [RegistryUnlock; Sleep 5]).

(** ** Message dispatcher worker *)

(** The section of the dispatcher under the queue lock, once the queue is
    not empty: unlink the head cell. *)
Definition dequeue (h : gmap Z Message) (q : MessageQueue)
    : outcome (Z * Message * MessageQueue) :=
  match h !! head q with
  | Some m =>
      Done (head q, m,
            mkMessageQueue (next m)
              (if next m =? NULL then NULL else tail q))
  | None => Fault
  end.

(** What one turn of the dispatcher's loop comes to: it stays in
    [pthread_cond_wait]; or it calls [deliver_message(target, msg)]; or it
    finds no target and goes straight to the [free] calls. *)
Inductive DispatchStep : Type :=
| Waiting
| Delivered (target : nat) (msg : Message)
| Discarded (msg : Message).

(** One turn of the dispatcher's [while (1)] loop.  On an empty queue the
    worker stays in [pthread_cond_wait]: nothing changes. *)
Definition message_dispatcher_iteration (rt : Runtime)
    : outcome (DispatchStep * Runtime) :=
  let q := message_queue (orch rt) in
  if head q =? NULL then Done (Waiting, rt)
  else
    '(msg, m, q') ← dequeue (heap rt) q;
    '(target, o') ←
      eghact_discover_service
        (mkEghactOrchestrator (registry (orch rt)) q' (load_balancer (orch rt)))
        (to_service m);
    Done (match target with
          | Some p => Delivered p m
          | None => Discarded m
          end,
          mkRuntime o' (delete msg (heap rt)) (issued rt)).

(** ** Circuit breaker *)

Inductive CircuitState : Type :=
| CLOSED
| OPEN
| HALF_OPEN.

Record CircuitBreaker : Type := mkCircuitBreaker {
  failure_count : Z;
  failure_threshold : Z;
  timeout_duration : Z;
  last_failure_time : Z;
  state : CircuitState
}.

Definition create_circuit_breaker (threshold timeout : Z) : CircuitBreaker :=
  mkCircuitBreaker 0 threshold timeout 0 CLOSED.

Definition set_state (cb : CircuitBreaker) (s : CircuitState) : CircuitBreaker :=
  mkCircuitBreaker (failure_count cb) (failure_threshold cb)
    (timeout_duration cb) (last_failure_time cb) s.

(** The test at the top of [circuit_breaker_call]: [None] is the early
    [return -1]. *)
Definition circuit_gate (now : Z) (cb : CircuitBreaker) : option CircuitBreaker :=
  match state cb with
  | OPEN =>
      if timeout_duration cb <? time_diff now (last_failure_time cb)
      then Some (set_state cb HALF_OPEN)
      else None
  | CLOSED => Some cb
  | HALF_OPEN => Some cb
  end.

(** [W] is the world the wrapped function works on; [time w] is what
    [time(NULL)] reads in [w].  [func] stands for [func(arg)]. *)
Definition circuit_breaker_call {W : Type} (time : W → Z)
    (cb : CircuitBreaker) (func : W → Z * W) (w : W)
    : Z * CircuitBreaker * W :=
  match circuit_gate (time w) cb with
  | None => (-1, cb, w)
  | Some cb1 =>
      let '(result, w1) := func w in
      if result =? 0 then
        (result,
         match state cb1 with
         | HALF_OPEN =>
             mkCircuitBreaker 0 (failure_threshold cb1) (timeout_duration cb1)
               (last_failure_time cb1) CLOSED
         | CLOSED => cb1
         | OPEN => cb1
         end,
         w1)
      else
        let cb2 :=
          mkCircuitBreaker (int_incr (failure_count cb1))
            (failure_threshold cb1) (timeout_duration cb1) (time w1)
            (state cb1) in
        (result,
         if failure_threshold cb2 <=? failure_count cb2
         then set_state cb2 OPEN
         else cb2,
         w1)
  end.

(** ** Everything a client or a worker can do to the orchestrator *)

Inductive Call : Type :=
| Register (name host : string) (port : Z)
| Discover (name : string)
| SendMessage (from to body : string)
| HealthCheck (probe : ServiceNode → ProbeResult)
| Dispatch.

(** What a call gives back: the return value of a client call, or what a
    worker did in its turn. *)
Inductive Reply : Type :=
| Registered (result : Z)
| Discovered (selected : NodePtr)
| Accepted (result : Z)
| Checked (steps : list HealthStep)
| Dispatched (d : DispatchStep).

Definition step (malloc : gmap Z Message → Z) (c : Call) (rt : Runtime)
    : outcome (Reply * Runtime) :=
  match c with
  | Register name host port =>
      let '(result, rt') := eghact_register_service rt name host port in
      Done (Registered result, rt')
  | Discover name =>
      '(selected, o') ← eghact_discover_service (orch rt) name;
      Done (Discovered selected, mkRuntime o' (heap rt) (issued rt))
  | SendMessage from to body =>
      '(result, rt') ← eghact_send_message malloc rt from to body;
      Done (Accepted result, rt')
  | HealthCheck probe =>
      let '(reg', steps) := health_check_iteration probe (registry (orch rt)) in
      Done (Checked steps,
            mkRuntime
              (mkEghactOrchestrator reg' (message_queue (orch rt))
                 (load_balancer (orch rt)))
              (heap rt) (issued rt))
  | Dispatch =>
      '(d, rt') ← message_dispatcher_iteration rt;
      Done (Dispatched d, rt')
  end.

(** A sequence of calls, each running to its end before the next: the
    replies in order and the runtime at the end. *)
Fixpoint run (malloc : gmap Z Message → Z) (calls : list Call) (rt : Runtime)
    : outcome (list Reply * Runtime) :=
  match calls with
  | [] => Done ([], rt)
  | c :: rest =>
      '(reply, rt1) ← step malloc c rt;
      '(replies, rt2) ← run malloc rest rt1;
      Done (reply :: replies, rt2)
  end.

(** ** The message queue as the spec has it *)

(** What a message carries: sender, destination, payload. *)
Definition content (m : Message) : string * string * string :=
  (from_service m, to_service m, payload m).

(** The spec's "ordered sequence of Message (FIFO)": a list, enqueue at its
    end, dequeue at its front. *)
Definition fifo_enqueue (x : string * string * string)
    (l : list (string * string * string)) : list (string * string * string) :=
  l ++ [x].

Definition fifo_dequeue (l : list (string * string * string))
    : option (string * string * string) * list (string * string * string) :=
  match l with
  | [] => (None, [])
  | x :: rest => (Some x, rest)
  end.

(** The calls as they act on that list: what each turn of the dispatcher
    takes off it, in order, and the list at the end. *)
Fixpoint fifo_run (calls : list Call) (l : list (string * string * string))
    : list (option (string * string * string))
      * list (string * string * string) :=
  match calls with
  | [] => ([], l)
  | SendMessage from to body :: rest =>
      fifo_run rest (fifo_enqueue (from, to, body) l)
  | Dispatch :: rest =>
      let '(x, l1) := fifo_dequeue l in
      let '(xs, l2) := fifo_run rest l1 in
      (x :: xs, l2)
  | _ :: rest => fifo_run rest l
  end.

(** The message a turn of the dispatcher took off the queue. *)
Definition handled (d : DispatchStep) : option (string * string * string) :=
  match d with
  | Waiting => None
  | Delivered _ m => Some (content m)
  | Discarded m => Some (content m)
  end.

(** What the dispatcher took off the queue, turn by turn, in a list of
    replies. *)
Fixpoint handled_in (replies : list Reply)
    : list (option (string * string * string)) :=
  match replies with
  | [] => []
  | Dispatched d :: rest => handled d :: handled_in rest
  | _ :: rest => handled_in rest
  end.

(** The cells of the linked list that starts at [p], with their addresses,
    up to the null pointer that ends it. *)
Fixpoint chain (h : gmap Z Message) (p : Z) (cells : list (Z * Message))
    : Prop :=
  match cells with
  | [] => p = NULL
  | (a, m) :: rest => p = a ∧ a ≠ NULL ∧ h !! a = Some m ∧ chain h (next m) rest
  end.

(** [cells] are the cells of the queue [q] in the heap [h], head first. *)
Definition queue_rep (h : gmap Z Message) (q : MessageQueue)
    (cells : list (Z * Message)) : Prop :=
  chain h (head q) cells ∧
  NoDup cells.*1 ∧
  tail q = default NULL (last cells.*1).

(** The round-robin counter can take [n] more selections without leaving
    the range of [int]. *)
Definition counter_room (n : nat) (lb : LoadBalancer) : Prop :=
  strategy lb = LB_ROUND_ROBIN →
  0 <= current_index lb ∧ current_index lb + Z.of_nat n <= INT_MAX.

(** The probes of a trace of the health checker that run while the
    registry lock is held, given whether it is held at the start. *)
Fixpoint probes_under_lock (held : bool) (steps : list HealthStep)
    : list (string * Z) :=
  match steps with
  | [] => []
  | RegistryLock :: rest => probes_under_lock true rest
  | RegistryUnlock :: rest => probes_under_lock false rest
  | Probe h p :: rest =>
      (if held then [(h, p)] else []) ++ probes_under_lock held rest
  | Sleep _ :: rest => probes_under_lock held rest
  end.

(** The ids of the nodes in the registry, head first. *)
Definition registered_ids (rt : Runtime) : list string :=
  service_id <$> services (registry (orch rt)).

(** ** Scenarios *)

(** A world that is a clock and a count of the calls of the wrapped
    function; the function fails and takes ten seconds. *)
Definition failing_call (w : Z * nat) : Z * (Z * nat) :=
  (1, (w.1 + 10, S w.2)).

(** What [eghact_discover_service] hands back to its caller. *)
Definition returned (r : outcome (NodePtr * EghactOrchestrator)) : outcome NodePtr :=
  match r with
  | Done (selected, _) => Done selected
  | Fault => Fault
  end.

(** The registry after "payments" was registered at 10.0.0.1 and then at
    10.0.0.2, and a probe of 10.0.0.1 failed. *)
Definition payments_orchestrator : EghactOrchestrator :=
  mkEghactOrchestrator
    (mkServiceRegistry
       [mkServiceNode "1" "payments" "10.0.0.2" 8080 1 0;
        mkServiceNode "0" "payments" "10.0.0.1" 8080 0 0]
       2)
    (mkMessageQueue NULL NULL)
    (mkLoadBalancer LB_ROUND_ROBIN 0).

Definition probe_first_down (n : ServiceNode) : ProbeResult :=
  if String.eqb (host n) "10.0.0.1" then ConnectFailed else Response "OK".

(** The registry after "billing" was registered once and its probe failed. *)
Definition billing_orchestrator : EghactOrchestrator :=
  mkEghactOrchestrator
    (mkServiceRegistry [mkServiceNode "0" "billing" "10.0.0.9" 9000 0 0] 1)
    (mkMessageQueue NULL NULL)
    (mkLoadBalancer LB_ROUND_ROBIN 0).

(** "api" registered at 10.0.0.1 and then at 10.0.0.2. *)
Definition two_api_runtime : Runtime :=
  (eghact_register_service
     (eghact_register_service initial_runtime "api" "10.0.0.1" 80).2
     "api" "10.0.0.2" 80).2.

(** [k] calls of [select_service_instance] in a row for one name, with
    nothing else done to the balancer or the registry in between; the
    pointers returned, first call first. *)
Fixpoint select_repeatedly (k : nat) (lb : LoadBalancer) (name : string)
    (reg : ServiceRegistry)
    : outcome (list NodePtr * LoadBalancer * ServiceRegistry) :=
  match k with
  | O => Done ([], lb, reg)
  | S k' =>
      '(selected, lb1, reg1) ← select_service_instance lb name reg;
      '(others, lb2, reg2) ← select_repeatedly k' lb1 name reg1;
      Done (selected :: others, lb2, reg2)
  end.

(** Three healthy instances of "web", and a balancer that has already made
    seven selections. *)
Definition web_registry : ServiceRegistry :=
  mkServiceRegistry
    [mkServiceNode "2" "web" "10.0.1.3" 80 1 2;
     mkServiceNode "1" "web" "10.0.1.2" 80 1 2;
     mkServiceNode "0" "web" "10.0.1.1" 80 1 3]
    3.

(** What the cells of a queue carry, head first. *)
Definition contents (cells : list (Z * Message))
    : list (string * string * string) :=
  (λ c, content c.2) <$> cells.

(** The calls of a sequence that make a selection. *)
Fixpoint selections (calls : list Call) : nat :=
  match calls with
  | [] => O
  | Discover _ :: rest => S (selections rest)
  | Dispatch :: rest => S (selections rest)
  | _ :: rest => selections rest
  end.

(** An allocator: the first address that is neither null nor in use. *)
Definition first_free (h : gmap Z Message) : Z := fresh ({[NULL]} ∪ dom h).

(** The runtime around [billing_orchestrator]. *)
Definition billing_runtime : Runtime :=
  mkRuntime billing_orchestrator ∅ {["0"]}.

(** Every id in the registry came from the generator, and no two nodes
    share one. *)
Definition ids_tracked (rt : Runtime) : Prop :=
  NoDup (registered_ids rt) ∧ ∀ id, id ∈ registered_ids rt → id ∈ issued rt.

(** A runtime whose queue holds one message, for a service nobody
    registered. *)
Definition nowhere_runtime : Runtime :=
  mkRuntime
    (mkEghactOrchestrator
       (mkServiceRegistry [mkServiceNode "0" "billing" "10.0.0.9" 9000 1 0] 1)
       (mkMessageQueue 1 1)
       (mkLoadBalancer LB_ROUND_ROBIN 0))
    {[1 := mkMessage "cart" "nowhere" "hello" 5 NULL]}
    {["0"]}.

(** ** Series of calls *)

(** A series of calls through one breaker.  Each call comes with the
    wrapped function and the world it finds; what the function leaves
    behind is not what the next call need find. *)
Fixpoint circuit_breaker_calls {W : Type} (time : W → Z)
    (cb : CircuitBreaker) (calls : list ((W → Z * W) * W))
    : list Z * CircuitBreaker :=
  match calls with
  | [] => ([], cb)
  | (func, w) :: rest =>
      let '(result, cb1, _) := circuit_breaker_call time cb func w in
      let '(results, cb2) := circuit_breaker_calls time cb1 rest in
      (result :: results, cb2)
  end.

(** What the wrapped function of a call answers. *)
Definition answer {W : Type} (c : (W → Z * W) * W) : Z := (c.1 c.2).1.

(** The calls of a series whose wrapped function does not answer 0. *)
Fixpoint failures {W : Type} (calls : list ((W → Z * W) * W)) : Z :=
  match calls with
  | [] => 0
  | c :: rest => (if answer c =? 0 then 0 else 1) + failures rest
  end.

(** A wrapped function that answers 0 and takes a second. *)
Definition passing_call (w : Z * nat) : Z * (Z * nat) :=
  (0, (w.1 + 1, S w.2)).

(** The loads of all the nodes, added up. *)
Definition total_load (nodes : list ServiceNode) : Z :=
  foldr (λ n acc, load n + acc) 0 nodes.

(** The nodes a sequence of calls handed out: the discoveries that
    returned a node and the dispatcher turns that delivered a message. *)
Fixpoint handed_out (replies : list Reply) : Z :=
  match replies with
  | [] => 0
  | Discovered (Some _) :: rest => 1 + handed_out rest
  | Dispatched (Delivered _ _) :: rest => 1 + handed_out rest
  | _ :: rest => handed_out rest
  end.

(** Selections for two services in turn, [a] then [b], [rounds] times
    over: the pairs of pointers returned. *)
Fixpoint select_alternately (rounds : nat) (lb : LoadBalancer) (a b : string)
    (reg : ServiceRegistry)
    : outcome (list (NodePtr * NodePtr) * LoadBalancer * ServiceRegistry) :=
  match rounds with
  | O => Done ([], lb, reg)
  | S rounds' =>
      '(pa, lb1, reg1) ← select_service_instance lb a reg;
      '(pb, lb2, reg2) ← select_service_instance lb1 b reg1;
      '(others, lb3, reg3) ← select_alternately rounds' lb2 a b reg2;
      Done ((pa, pb) :: others, lb3, reg3)
  end.

(** Two instances of "api" and one of "web", all healthy. *)
Definition api_web_registry : ServiceRegistry :=
  mkServiceRegistry
    [mkServiceNode "2" "web" "10.0.1.1" 80 1 0;
     mkServiceNode "1" "api" "10.0.0.2" 80 1 0;
     mkServiceNode "0" "api" "10.0.0.1" 80 1 0]
    3.

(** [two_api_runtime] with the weighted strategy set. *)
Definition weighted_runtime : Runtime :=
  mkRuntime
    (mkEghactOrchestrator (registry (orch two_api_runtime))
       (mkMessageQueue NULL NULL) (mkLoadBalancer LB_WEIGHTED 0))
    ∅ (issued two_api_runtime).

(** ** The exports for WASM *)

(** The double quote character. *)
Definition dquote : Ascii.ascii := Ascii.ascii_of_nat 34.

(** The pieces of the format of [discover_service] around its three
    conversions: up to the id, between id and host, between host and
    port. *)
Definition json_id : string :=
  "{" +:+ String dquote "id" +:+ String dquote ":" +:+ String dquote EmptyString.

Definition json_host : string :=
  String dquote "," +:+ String dquote "host" +:+ String dquote ":"
  +:+ String dquote EmptyString.

Definition json_port : string :=
  String dquote "," +:+ String dquote "port" +:+ String dquote ":".

(** The text the format gives for a node: [%s] is the string as it is,
    [%d] the decimal numeral of the [int]. *)
Definition node_json (n : ServiceNode) : string :=
  json_id +:+ service_id n +:+ json_host +:+ host n +:+ json_port
  +:+ pretty (port n) +:+ "}".

(** [snprintf(buf, size, ...)] followed by [strdup(buf)]: the first
    [size - 1] characters of the text. *)
Definition snprintf (size : nat) (text : string) : string :=
  String.substring 0 (size - 1) text.

Definition create_orchestrator : EghactOrchestrator := eghact_orchestrator_init.

Definition register_service (rt : Runtime) (name host : string) (port : Z)
    : Z * Runtime :=
  eghact_register_service rt name host port.



(** How often a node was returned in a series of selections. *)
Fixpoint times_selected (q : nat) (selections : list NodePtr) : Z :=
  match selections with
  | [] => 0
  | Some p :: rest =>
      (if decide (p = q) then 1 else 0) + times_selected q rest
  | None :: rest => times_selected q rest
  end.

(** Three messages for "web" in the queue, in front of [web_registry]. *)
Definition web_queue_cells : list (Z * Message) :=
  [(1, mkMessage "cart" "web" "m1" 5 2);
   (2, mkMessage "cart" "web" "m2" 5 3);
   (3, mkMessage "stock" "web" "m3" 5 NULL)].

Definition web_queue_runtime : Runtime :=
  mkRuntime
    (mkEghactOrchestrator web_registry (mkMessageQueue 1 3)
       (mkLoadBalancer LB_ROUND_ROBIN 7))
    (list_to_map web_queue_cells)
    {["0"; "1"; "2"]}.

(** * Properties *)

(** ** C integers *)

Lemma int_incr_no_overflow (x : Z) :
  INT_MIN <= x < INT_MAX → int_incr x = x + 1.
Proof.
  unfold int_incr, wrap_int, INT_MIN, INT_MAX. intros Hx.
  rewrite Z.mod_small by lia. lia.
Qed.

(** ** Circuit breaker *)

Section CircuitBreakerFacts.

Context {W : Type} (time : W → Z).

(** While the breaker is OPEN and the timeout has not run out, the call
    answers -1 whatever the wrapped function is, and leaves the breaker and
    the world as they were. *)
Lemma circuit_open_rejects (cb : CircuitBreaker) (func : W → Z * W) (w : W) :
  state cb = OPEN →
  time_diff (time w) (last_failure_time cb) <= timeout_duration cb →
  circuit_breaker_call time cb func w = (-1, cb, w).
Proof.
  intros Hopen Hwait. unfold circuit_breaker_call, circuit_gate.
  rewrite Hopen.
  destruct (Z.ltb_spec (timeout_duration cb)
              (time_diff (time w) (last_failure_time cb))); [lia | reflexivity].
Qed.

(** A call that gets through the gate and whose function answers 0. *)
Lemma circuit_call_success (cb cb1 : CircuitBreaker) (func : W → Z * W) (w : W) :
  circuit_gate (time w) cb = Some cb1 →
  (func w).1 = 0 →
  circuit_breaker_call time cb func w =
    (0,
     match state cb1 with
     | HALF_OPEN =>
         mkCircuitBreaker 0 (failure_threshold cb1) (timeout_duration cb1)
           (last_failure_time cb1) CLOSED
     | CLOSED => cb1
     | OPEN => cb1
     end,
     (func w).2).
Proof.
  intros Hgate Hres. unfold circuit_breaker_call. rewrite Hgate.
  destruct (func w) as [result w1]. simpl in *. subst result. reflexivity.
Qed.

(** A call that gets through the gate and whose function fails. *)
Lemma circuit_call_failure (cb cb1 : CircuitBreaker) (func : W → Z * W) (w : W) :
  circuit_gate (time w) cb = Some cb1 →
  (func w).1 ≠ 0 →
  circuit_breaker_call time cb func w =
    ((func w).1,
     let count := int_incr (failure_count cb1) in
     mkCircuitBreaker count (failure_threshold cb1) (timeout_duration cb1)
       (time (func w).2)
       (if failure_threshold cb1 <=? count then OPEN else state cb1),
     (func w).2).
Proof.
  intros Hgate Hres. unfold circuit_breaker_call. rewrite Hgate.
  destruct (func w) as [result w1]. simpl in *.
  destruct (Z.eqb_spec result 0) as [->|_]; [done|].
  destruct (_ <=? _); reflexivity.
Qed.

(** C1: a breaker created with threshold 3 is OPEN after three failing
    calls in a row; while no more than [timeout] has passed since the last
    failure every call answers -1 with the breaker and the world untouched,
    whatever the wrapped function is; the first call later than that runs
    the function and, when it answers 0, leaves the breaker CLOSED with
    [failure_count = 0], and when it fails, leaves it OPEN with
    [last_failure_time] set to the time read after the failure. *)
Theorem circuit_breaker_threshold_three
    (timeout : Z) (f1 f2 f3 : W → Z * W) (w1 w2 w3 : W) :
  (f1 w1).1 ≠ 0 → (f2 w2).1 ≠ 0 → (f3 w3).1 ≠ 0 →
  let cb0 := create_circuit_breaker 3 timeout in
  let cb1 := mkCircuitBreaker 1 3 timeout (time (f1 w1).2) CLOSED in
  let cb2 := mkCircuitBreaker 2 3 timeout (time (f2 w2).2) CLOSED in
  let cb3 := mkCircuitBreaker 3 3 timeout (time (f3 w3).2) OPEN in
  circuit_breaker_call time cb0 f1 w1 = ((f1 w1).1, cb1, (f1 w1).2) ∧
  circuit_breaker_call time cb1 f2 w2 = ((f2 w2).1, cb2, (f2 w2).2) ∧
  circuit_breaker_call time cb2 f3 w3 = ((f3 w3).1, cb3, (f3 w3).2) ∧
  (∀ (func : W → Z * W) (w : W),
     time_diff (time w) (last_failure_time cb3) <= timeout →
     circuit_breaker_call time cb3 func w = (-1, cb3, w)) ∧
  (∀ (func : W → Z * W) (w : W),
     timeout < time_diff (time w) (last_failure_time cb3) →
     circuit_gate (time w) cb3 = Some (set_state cb3 HALF_OPEN) ∧
     ((func w).1 = 0 →
      circuit_breaker_call time cb3 func w =
        (0, mkCircuitBreaker 0 3 timeout (last_failure_time cb3) CLOSED,
         (func w).2)) ∧
     ((func w).1 ≠ 0 →
      circuit_breaker_call time cb3 func w =
        ((func w).1, mkCircuitBreaker 4 3 timeout (time (func w).2) OPEN,
         (func w).2))).
Proof.
  intros H1 H2 H3 cb0 cb1 cb2 cb3.
  split; [|split; [|split; [|split]]].
  - by rewrite (circuit_call_failure cb0 cb0).
  - by rewrite (circuit_call_failure cb1 cb1).
  - by rewrite (circuit_call_failure cb2 cb2).
  - intros func w Hwait. by apply circuit_open_rejects.
  - intros func w Hlate.
    assert (Hgate : circuit_gate (time w) cb3 = Some (set_state cb3 HALF_OPEN)).
    { unfold circuit_gate. simpl.
      destruct (Z.ltb_spec timeout (time_diff (time w) (time (f3 w3).2)));
        [reflexivity | simpl in Hlate; lia]. }
    split; [exact Hgate|]. split; intros Hres.
    + by rewrite (circuit_call_success cb3 _ func w Hgate Hres).
    + by rewrite (circuit_call_failure cb3 _ func w Hgate Hres).
Qed.

End CircuitBreakerFacts.


Lemma circuit_breaker_threshold_three_witness :
  (failing_call (100, 0%nat)).1 ≠ 0 ∧
  circuit_breaker_call fst (mkCircuitBreaker 2 3 60 120 CLOSED)
    failing_call (120, 2%nat)
  = (1, mkCircuitBreaker 3 3 60 130 OPEN, (130, 3%nat)) ∧
  circuit_breaker_call fst (mkCircuitBreaker 3 3 60 130 OPEN)
    failing_call (190, 3%nat)
  = (-1, mkCircuitBreaker 3 3 60 130 OPEN, (190, 3%nat)).
Proof.
  assert (Hfail : ∀ w, (failing_call w).1 ≠ 0) by (intros w; simpl; lia).
  pose proof (circuit_breaker_threshold_three fst 60 failing_call failing_call
                failing_call (100, 0%nat) (110, 1%nat) (120, 2%nat)
                (Hfail _) (Hfail _) (Hfail _)) as (_ & _ & H3 & Hopen & _).
  split; [apply Hfail|]. split; [exact H3|].
  apply (Hopen failing_call (190, 3%nat)). vm_compute. discriminate.
Defined.

(** ** The collecting loop of [select_service_instance] *)

Lemma is_instance_spec (name : string) (n : ServiceNode) :
  is_instance name n = true ↔ service_name n = name ∧ health_status n = 1.
Proof.
  unfold is_instance. rewrite andb_true_iff, String.eqb_eq, Z.eqb_eq. tauto.
Qed.

Lemma is_instance_set_load (name : string) (n : ServiceNode) (l : Z) :
  is_instance name (set_load n l) = is_instance name n.
Proof. reflexivity. Qed.

(** The array holds exactly the pointers to the healthy nodes of the name. *)
Lemma elem_of_collect_instances (name : string) (nodes : list ServiceNode)
    (current p : nat) :
  p ∈ collect_instances name current nodes ↔
  (current ≤ p)%nat ∧
  ∃ n, nodes !! (p - current)%nat = Some n ∧ is_instance name n = true.
Proof.
  revert current. induction nodes as [|n0 rest IH]; intros current; simpl.
  - split; [intros H; by apply elem_of_nil in H | intros (_ & n & H & _); done].
  - assert (Hrest : p ∈ collect_instances name (S current) rest ↔
              (current < p)%nat ∧
              ∃ n, (n0 :: rest) !! (p - current)%nat = Some n
                   ∧ is_instance name n = true).
    { rewrite IH. split.
      - intros (Hle & n & Hn & Hi). split; [lia|]. exists n. split; [|done].
        replace (p - current)%nat with (S (p - S current)) by lia. done.
      - intros (Hlt & n & Hn & Hi). split; [lia|]. exists n. split; [|done].
        replace (p - current)%nat with (S (p - S current)) in Hn by lia. done. }
    destruct (is_instance name n0) eqn:Hn0.
    + rewrite elem_of_cons, Hrest. split.
      * intros [->|(Hlt & Hex)].
        -- split; [lia|]. exists n0. by rewrite Nat.sub_diag.
        -- split; [lia | done].
      * intros (Hle & Hex). destruct (decide (p = current)) as [->|Hne];
          [by left | right; split; [lia | done]].
    + rewrite Hrest. split.
      * intros (Hlt & Hex). split; [lia | done].
      * intros (Hle & n & Hn & Hi). split; [|by exists n].
        destruct (decide (p = current)) as [->|Hne]; [|lia].
        rewrite Nat.sub_diag in Hn. simpl in Hn. congruence.
Qed.

(** The pointers come in list order, so no pointer comes twice. *)
Lemma collect_instances_sorted (name : string) (nodes : list ServiceNode)
    (current : nat) :
  StronglySorted lt (collect_instances name current nodes).
Proof.
  revert current. induction nodes as [|n0 rest IH]; intros current; simpl.
  - constructor.
  - destruct (is_instance name n0); [|apply IH].
    constructor; [apply IH|]. apply Forall_forall. intros p Hp.
    apply elem_of_collect_instances in Hp. lia.
Qed.

Lemma collect_instances_NoDup (name : string) (nodes : list ServiceNode)
    (current : nat) :
  NoDup (collect_instances name current nodes).
Proof.
  pose proof (collect_instances_sorted name nodes current) as Hs.
  induction Hs as [|p l Hs IH Hall]; constructor; [|done].
  intros Hin. rewrite Forall_forall in Hall. specialize (Hall p Hin). lia.
Qed.

(** Counting a connection on a node leaves the array as it is. *)
Lemma collect_instances_set_load (name : string) (nodes : list ServiceNode)
    (current p : nat) (n : ServiceNode) (l : Z) :
  nodes !! p = Some n →
  collect_instances name current (<[p := set_load n l]> nodes)
  = collect_instances name current nodes.
Proof.
  revert current p. induction nodes as [|n0 rest IH]; intros current p Hp.
  - done.
  - destruct p as [|p]; simpl in *.
    + injection Hp as ->. by rewrite is_instance_set_load.
    + by rewrite (IH _ _ Hp).
Qed.

Lemma collect_instances_valid (name : string) (nodes : list ServiceNode)
    (p : nat) :
  p ∈ collect_instances name 0 nodes ↔
  ∃ n, nodes !! p = Some n ∧ service_name n = name ∧ health_status n = 1.
Proof.
  rewrite elem_of_collect_instances, Nat.sub_0_r.
  setoid_rewrite is_instance_spec. split.
  - intros (_ & n & ? & ?). by exists n.
  - intros (n & ? & ?). split; [lia | by exists n].
Qed.

Lemma array_get_Done {A : Type} (arr : list A) (i : Z) (a : A) :
  array_get arr i = Done a ↔ 0 <= i ∧ arr !! Z.to_nat i = Some a.
Proof.
  unfold array_get. destruct (Z.ltb_spec i 0).
  - split; [done | lia].
  - destruct (arr !! Z.to_nat i) as [b|].
    + split; [intros [= ->]; done | intros [_ [= ->]]; done].
    + split; [done | intros [_ [=]]].
Qed.

(** The least-connections loop answers with a pointer it was given. *)
Lemma least_connections_loop_elem (nodes : list ServiceNode)
    (rest : list nat) (selected r : nat) :
  least_connections_loop nodes rest selected = Done r → r ∈ selected :: rest.
Proof.
  revert selected. induction rest as [|p rest IH]; intros selected; simpl.
  - intros [= ->]. by left.
  - unfold node_at. destruct (nodes !! p) as [n|]; [|done].
    destruct (nodes !! selected) as [s|]; [|done]. simpl.
    intros Hr. apply IH in Hr. rewrite !elem_of_cons.
    apply elem_of_cons in Hr as [->|Hr]; [|by auto].
    destruct (load n <? load s); auto.
Qed.

(** Whatever [select_service_instance] answers with is one of the array's
    pointers, and its load has been counted up. *)
Lemma select_service_instance_Some (lb lb' : LoadBalancer) (name : string)
    (reg reg' : ServiceRegistry) (p : nat) :
  select_service_instance lb name reg = Done (Some p, lb', reg') →
  p ∈ collect_instances name 0 (services reg) ∧
  ∃ n, services reg !! p = Some n ∧
       reg' = mkServiceRegistry
                (<[p := set_load n (int_incr (load n))]> (services reg))
                (num_services reg).
Proof.
  unfold select_service_instance.
  set (instances := collect_instances name 0 (services reg)).
  destruct (0 <? Z.of_nat (length instances)); [|done].
  assert (Hfin : ∀ q lb1,
    (match Some q with
     | Some p0 =>
         n ← node_at (services reg) p0;
         Done (Some p0, lb1,
               mkServiceRegistry
                 (<[p0 := set_load n (int_incr (load n))]> (services reg))
                 (num_services reg))
     | None => Done (None, lb1, reg)
     end) = Done (Some p, lb', reg') →
    q = p ∧ ∃ n, services reg !! p = Some n ∧
       reg' = mkServiceRegistry
                (<[p := set_load n (int_incr (load n))]> (services reg))
                (num_services reg)).
  { intros q lb1. unfold node_at. destruct (services reg !! q) as [n|] eqn:Hq;
      [|done]. simpl. intros [= -> -> <-]. split; [done|]. by exists n. }
  destruct (strategy lb).
  - destruct (array_get instances _) as [q|] eqn:Hget; [|done]. simpl.
    intros H. apply Hfin in H as [-> H]. split; [|done].
    apply array_get_Done in Hget as [_ Hget].
    by eapply list_elem_of_lookup_2.
  - destruct (array_get instances 0) as [first|] eqn:Hget; [|done]. simpl.
    destruct (least_connections_loop _ _ first) as [q|] eqn:Hloop; [|done].
    simpl. intros H. apply Hfin in H as [-> H]. split; [|done].
    apply least_connections_loop_elem in Hloop.
    apply array_get_Done in Hget as [_ Hget]. simpl in Hget.
    destruct instances as [|i0 irest]; [done|]. simpl in *.
    by simplify_eq.
  - done.
  - done.
Qed.

(** With no healthy node of the name the array is empty. *)
Lemma collect_instances_nil (name : string) (nodes : list ServiceNode) :
  (∀ n, n ∈ nodes → service_name n = name → health_status n ≠ 1) →
  collect_instances name 0 nodes = [].
Proof.
  intros Hnone.
  destruct (collect_instances name 0 nodes) as [|p l] eqn:Hc; [done|].
  assert (Hp : p ∈ collect_instances name 0 nodes) by (rewrite Hc; by left).
  apply collect_instances_valid in Hp as (n & Hn & Hname & Hh).
  exfalso. apply (Hnone n); [|done..]. by eapply list_elem_of_lookup_2.
Qed.

(** ** Discovery *)


Example payments_orchestrator_reached (malloc : gmap Z Message → Z) :
  (orch ∘ snd) <$> (run malloc
                      [Register "payments" "10.0.0.1" 8080;
                       Register "payments" "10.0.0.2" 8080;
                       HealthCheck probe_first_down]
                      initial_runtime)
  = Done payments_orchestrator.
Proof. vm_compute. reflexivity. Qed.

Example billing_orchestrator_reached (malloc : gmap Z Message → Z) :
  (orch ∘ snd) <$> (run malloc
                      [Register "billing" "10.0.0.9" 9000;
                       HealthCheck (λ _, ConnectFailed)]
                      initial_runtime)
  = Done billing_orchestrator.
Proof. vm_compute. reflexivity. Qed.

(** C5: in every state of the orchestrator (so after any sequence of
    registrations and health checks), when [eghact_discover_service] returns
    a node, that node carries the requested name and its health status is 1
    (HEALTHY), before the call and after it; a node whose health status is
    not 1 is never returned. *)
Theorem discover_returns_only_healthy
    (o o' : EghactOrchestrator) (name : string) (p : nat) :
  eghact_discover_service o name = Done (Some p, o') →
  ∃ n n',
    services (registry o) !! p = Some n ∧
    service_name n = name ∧ health_status n = 1 ∧
    services (registry o') !! p = Some n' ∧
    service_name n' = name ∧ health_status n' = 1.
Proof.
  unfold eghact_discover_service. intros H.
  destruct (select_service_instance _ _ _) as [[[sel lb'] reg']|] eqn:Hsel;
    [|done].
  simpl in H. injection H as -> <-.
  apply select_service_instance_Some in Hsel as (Hin & n & Hn & ->).
  apply collect_instances_valid in Hin as (n1 & Hn1 & Hname & Hh).
  assert (n1 = n) as -> by congruence.
  exists n, (set_load n (int_incr (load n))). simpl.
  split_and!; try done.
  apply list_lookup_insert_eq. by eapply lookup_lt_Some.
Qed.

Lemma discover_returns_only_healthy_witness :
  ∃ n n',
    services (registry payments_orchestrator) !! 0%nat = Some n ∧
    service_name n = "payments" ∧ health_status n = 1 ∧
    services
      (registry
         (mkEghactOrchestrator
            (mkServiceRegistry
               [mkServiceNode "1" "payments" "10.0.0.2" 8080 1 1;
                mkServiceNode "0" "payments" "10.0.0.1" 8080 0 0]
               2)
            (mkMessageQueue NULL NULL)
            (mkLoadBalancer LB_ROUND_ROBIN 1))) !! 0%nat = Some n' ∧
    service_name n' = "payments" ∧ health_status n' = 1.
Proof.
  apply (discover_returns_only_healthy payments_orchestrator _ "payments" 0).
  vm_compute. reflexivity.
Defined.

(** C2, as the code has it: when no node in the registry has the requested
    name and health status 1, [eghact_discover_service] returns the null
    pointer and leaves the orchestrator as it was.  That covers a name that
    was never registered and a name whose instances are all unhealthy
    alike; nothing in what is returned tells the two apart. *)
Theorem discover_without_healthy_instance_is_null
    (o : EghactOrchestrator) (name : string) :
  (∀ n, n ∈ services (registry o) → service_name n = name →
        health_status n ≠ 1) →
  eghact_discover_service o name = Done (None, o).
Proof.
  intros Hnone. unfold eghact_discover_service, select_service_instance.
  rewrite (collect_instances_nil _ _ Hnone). simpl. by destruct o.
Qed.

Lemma discover_without_healthy_instance_is_null_witness :
  eghact_discover_service billing_orchestrator "billing"
  = Done (None, billing_orchestrator).
Proof.
  apply discover_without_healthy_instance_is_null.
  intros n Hn _. apply list_elem_of_singleton in Hn as ->. simpl. lia.
Defined.

(** C2 fails as stated: for a name that was never registered and for a name
    with one registered, unhealthy instance, the caller gets the same
    answer, the null pointer. *)
Lemma discover_unregistered_same_as_unhealthy :
  (∀ n, n ∈ services (registry eghact_orchestrator_init) →
        service_name n ≠ "billing") ∧
  (∃ n, n ∈ services (registry billing_orchestrator) ∧
        service_name n = "billing" ∧ health_status n ≠ 1) ∧
  returned (eghact_discover_service eghact_orchestrator_init "billing")
  = Done None ∧
  returned (eghact_discover_service billing_orchestrator "billing")
  = Done None ∧
  returned (eghact_discover_service eghact_orchestrator_init "billing")
  = returned (eghact_discover_service billing_orchestrator "billing").
Proof.
  split_and!.
  - intros n Hn. simpl in Hn. by apply elem_of_nil in Hn.
  - eexists. split; [by apply list_elem_of_singleton|]. simpl. split; [done|lia].
  - reflexivity.
  - reflexivity.
  - reflexivity.
Qed.

(** ** Least connections *)

(** The loop answers with a pointer of minimum load; of the pointers with
    that load it answers with the first. *)
Lemma least_connections_loop_min (nodes : list ServiceNode)
    (rest : list nat) (selected : nat) :
  StronglySorted lt (selected :: rest) →
  (∀ q, q ∈ selected :: rest → is_Some (nodes !! q)) →
  ∃ r n,
    least_connections_loop nodes rest selected = Done r ∧
    r ∈ selected :: rest ∧ nodes !! r = Some n ∧
    ∀ q m, q ∈ selected :: rest → nodes !! q = Some m →
           load n <= load m ∧ ((q < r)%nat → load n < load m).
Proof.
  revert selected. induction rest as [|p rest IH]; intros selected Hs Hvalid.
  - destruct (Hvalid selected) as [s Hsel]; [by left|].
    exists selected, s. simpl. split_and!; [done | by left | done |].
    intros q m Hq Hm. apply list_elem_of_singleton in Hq as ->.
    assert (m = s) as -> by congruence. lia.
  - destruct (Hvalid selected) as [s Hsel]; [by left|].
    destruct (Hvalid p) as [n Hp]; [right; by left|].
    apply StronglySorted_inv in Hs as [Hs Hlt].
    apply Forall_cons in Hlt as [Hlt_p Hlt_rest].
    pose proof Hs as Hs'. apply StronglySorted_inv in Hs' as [Hs_rest Hp_rest].
    simpl. unfold node_at at 1 2. rewrite Hp, Hsel. simpl.
    destruct (Z.ltb_spec (load n) (load s)) as [Hless|Hge].
    + destruct (IH p Hs) as (r & nr & Hloop & Hr & Hnr & Hmin).
      { intros q Hq. apply Hvalid. by right. }
      exists r, nr. split_and!; [done | by right | done |].
      intros q m Hq Hm. apply elem_of_cons in Hq as [->|Hq].
      * assert (m = s) as -> by congruence.
        destruct (Hmin p n) as [Hle _]; [by left | done | lia].
      * by apply Hmin.
    + destruct (IH selected) as (r & nr & Hloop & Hr & Hnr & Hmin).
      { by constructor. }
      { intros q Hq. apply Hvalid.
        apply elem_of_cons in Hq as [->|Hq]; [by left | right; by right]. }
      exists r, nr. split_and!; [done | | done |].
      { apply elem_of_cons in Hr as [->|Hr]; [by left | right; by right]. }
      intros q m Hq Hm.
      apply elem_of_cons in Hq as [->|Hq]; [apply Hmin; [by left | done]|].
      apply elem_of_cons in Hq as [->|Hq]; [|apply Hmin; [by right | done]].
      assert (m = n) as -> by congruence.
      destruct (Hmin selected s) as [Hle Hstrict]; [by left | done |].
      split; [lia|]. intros Hpr.
      assert (selected < r)%nat as Hsr by lia.
      specialize (Hstrict Hsr). lia.
Qed.

(** C3, as the code has it: under least connections, when the service has
    a healthy instance, the call returns a healthy instance of the service
    whose load is at most the load of every healthy instance of the service;
    of the healthy instances with that minimum load it returns the one
    closest to the head of the registry list.  [eghact_register_service]
    puts each new node at the head, so that is the one registered last, not
    the one registered first. *)
Theorem least_connections_selects_minimum
    (lb : LoadBalancer) (name : string) (reg : ServiceRegistry) :
  strategy lb = LB_LEAST_CONNECTIONS →
  collect_instances name 0 (services reg) ≠ [] →
  ∃ p n,
    select_service_instance lb name reg =
      Done (Some p, lb,
            mkServiceRegistry
              (<[p := set_load n (int_incr (load n))]> (services reg))
              (num_services reg)) ∧
    services reg !! p = Some n ∧
    service_name n = name ∧ health_status n = 1 ∧
    ∀ q m, services reg !! q = Some m →
           service_name m = name → health_status m = 1 →
           load n <= load m ∧ (load m = load n → (p ≤ q)%nat).
Proof.
  intros Hstrat Hne. unfold select_service_instance. rewrite Hstrat.
  pose proof (collect_instances_sorted name (services reg) 0) as Hsorted.
  pose proof (collect_instances_valid name (services reg)) as Hvalid.
  destruct (collect_instances name 0 (services reg)) as [|first rest];
    [done|].
  clear Hne. simpl length. rewrite Nat2Z.inj_succ.
  destruct (Z.ltb_spec 0 (Z.succ (Z.of_nat (length rest)))); [|lia].
  unfold array_get. simpl. rewrite drop_0.
  destruct (least_connections_loop_min (services reg) rest first Hsorted)
    as (r & n & Hloop & Hr & Hn & Hmin).
  { intros q Hq. apply Hvalid in Hq as (m & Hm & _). by exists m. }
  rewrite Hloop. simpl. unfold node_at. rewrite Hn. simpl.
  exists r, n. apply Hvalid in Hr as (n' & Hn' & Hname & Hh).
  assert (n' = n) as -> by congruence.
  split_and!; try done.
  intros q m Hm Hmname Hmh.
  destruct (Hmin q m) as [Hle Hstrict]; [|done|].
  { apply Hvalid. by exists m. }
  split; [done|]. intros Heq.
  destruct (decide (r ≤ q)%nat) as [|Hlt]; [done|].
  assert (q < r)%nat as Hqr by lia. specialize (Hstrict Hqr). lia.
Qed.

Lemma least_connections_selects_minimum_witness :
  let lb := mkLoadBalancer LB_LEAST_CONNECTIONS 0 in
  let reg := registry (orch two_api_runtime) in
  ∃ p n,
    select_service_instance lb "api" reg =
      Done (Some p, lb,
            mkServiceRegistry
              (<[p := set_load n (int_incr (load n))]> (services reg))
              (num_services reg)) ∧
    services reg !! p = Some n ∧
    service_name n = "api" ∧ health_status n = 1 ∧
    ∀ q m, services reg !! q = Some m →
           service_name m = "api" → health_status m = 1 →
           load n <= load m ∧ (load m = load n → (p ≤ q)%nat).
Proof.
  apply least_connections_selects_minimum;
    [reflexivity | vm_compute; discriminate].
Defined.

(** C3 fails as stated: with two healthy instances of "api", both of load
    0, least connections returns the instance registered second (10.0.0.2,
    at the head of the list), not the one registered first. *)
Lemma least_connections_tie_goes_to_latest :
  services (registry (orch two_api_runtime))
  = [mkServiceNode "1" "api" "10.0.0.2" 80 1 0;
     mkServiceNode "0" "api" "10.0.0.1" 80 1 0] ∧
  select_service_instance (mkLoadBalancer LB_LEAST_CONNECTIONS 0) "api"
    (registry (orch two_api_runtime))
  = Done (Some 0%nat, mkLoadBalancer LB_LEAST_CONNECTIONS 0,
          mkServiceRegistry
            [mkServiceNode "1" "api" "10.0.0.2" 80 1 1;
             mkServiceNode "0" "api" "10.0.0.1" 80 1 0] 2) ∧
  ¬ (∃ n, services (registry (orch two_api_runtime)) !! 0%nat = Some n ∧
          host n = "10.0.0.1").
Proof.
  split_and!.
  - vm_compute. reflexivity.
  - vm_compute. reflexivity.
  - intros (n & Hn & Hhost). vm_compute in Hn. injection Hn as <-.
    discriminate Hhost.
Qed.

(** ** Round robin *)

Lemma rotate_Permutation {A : Type} (n : nat) (l : list A) : rotate n l ≡ₚ l.
Proof. unfold rotate. by rewrite Permutation_app_comm, take_drop. Qed.

(** One round-robin selection, while the counter is in range. *)
Lemma select_round_robin_step (lb : LoadBalancer) (name : string)
    (reg : ServiceRegistry) :
  strategy lb = LB_ROUND_ROBIN →
  collect_instances name 0 (services reg) ≠ [] →
  0 <= current_index lb < INT_MAX →
  ∃ p n,
    collect_instances name 0 (services reg)
      !! Z.to_nat (current_index lb
                   `mod` Z.of_nat (length (collect_instances name 0 (services reg))))
    = Some p ∧
    services reg !! p = Some n ∧
    select_service_instance lb name reg =
      Done (Some p,
            mkLoadBalancer LB_ROUND_ROBIN (current_index lb + 1),
            mkServiceRegistry
              (<[p := set_load n (int_incr (load n))]> (services reg))
              (num_services reg)).
Proof.
  intros Hstrat Hne Hrange. unfold select_service_instance. rewrite Hstrat.
  pose proof (collect_instances_valid name (services reg)) as Hvalid.
  set (instances := collect_instances name 0 (services reg)) in *.
  assert (0 < Z.of_nat (length instances)) as Hpos.
  { destruct instances; [done | simpl; lia]. }
  destruct (Z.ltb_spec 0 (Z.of_nat (length instances))); [|lia].
  rewrite Z.rem_mod_nonneg by lia.
  pose proof (Z.mod_pos_bound (current_index lb) _ Hpos) as Hmod.
  destruct (lookup_lt_is_Some_2 instances
              (Z.to_nat (current_index lb `mod` Z.of_nat (length instances))))
    as [p Hp]; [lia|].
  assert (p ∈ instances) as Hin by (by eapply list_elem_of_lookup_2).
  apply Hvalid in Hin as (n & Hn & _).
  exists p, n. split_and!; [done..|].
  unfold array_get.
  destruct (Z.ltb_spec (current_index lb `mod` Z.of_nat (length instances)) 0);
    [lia|].
  rewrite Hp. simpl. unfold node_at. rewrite Hn. simpl.
  rewrite int_incr_no_overflow by (unfold INT_MIN; lia). reflexivity.
Qed.

(** [j] round-robin selections in a row walk the array from the counter
    on, modulo its length, and leave the array as it is. *)
Lemma select_repeatedly_round_robin (name : string) (instances : list nat)
    (j : nat) :
  ∀ (lb : LoadBalancer) (reg : ServiceRegistry),
    strategy lb = LB_ROUND_ROBIN →
    collect_instances name 0 (services reg) = instances →
    instances ≠ [] →
    0 <= current_index lb →
    current_index lb + Z.of_nat j <= INT_MAX →
    ∃ ps lb' reg',
      select_repeatedly j lb name reg = Done (Some <$> ps, lb', reg') ∧
      length ps = j ∧
      (∀ i, (i < j)%nat →
            ps !! i =
            instances !! Z.to_nat ((current_index lb + Z.of_nat i)
                                   `mod` Z.of_nat (length instances))) ∧
      collect_instances name 0 (services reg') = instances.
Proof.
  induction j as [|j IH]; intros lb reg Hstrat Hinst Hne Hlo Hhi.
  - exists [], lb, reg. simpl. split_and!; [done | done | lia | done].
  - destruct (select_round_robin_step lb name reg Hstrat)
      as (p & n & Hp & Hn & Hsel); [by rewrite Hinst | lia |].
    rewrite Hinst in Hp.
    destruct (IH (mkLoadBalancer LB_ROUND_ROBIN (current_index lb + 1))
                (mkServiceRegistry
                   (<[p := set_load n (int_incr (load n))]> (services reg))
                   (num_services reg)))
      as (ps & lb' & reg' & Hrep & Hlen & Hps & Hinst');
      [done | | done | simpl; lia | simpl; lia |].
    { simpl. by rewrite collect_instances_set_load. }
    exists (p :: ps), lb', reg'. simpl. rewrite Hsel. simpl. rewrite Hrep.
    simpl. split_and!; [done | by rewrite Hlen | | done].
    intros [|i] Hi; simpl.
    + by rewrite Z.add_0_r.
    + rewrite Hps by lia. simpl. do 3 f_equal. lia.
Qed.

(** C4: under round robin, with [k >= 1] healthy instances of the service
    and the counter between 0 and [INT_MAX - k], [k] selections in a row
    succeed, leave the pool of healthy instances as it was, and return each
    of the [k] instances exactly once: the pointers returned are the array
    of healthy instances rotated by the counter. *)
Theorem round_robin_visits_each_once
    (lb : LoadBalancer) (name : string) (reg : ServiceRegistry) (k : nat) :
  strategy lb = LB_ROUND_ROBIN →
  length (collect_instances name 0 (services reg)) = k →
  (1 ≤ k)%nat →
  0 <= current_index lb →
  current_index lb + Z.of_nat k <= INT_MAX →
  ∃ ps lb' reg',
    select_repeatedly k lb name reg = Done (Some <$> ps, lb', reg') ∧
    ps = rotate (Z.to_nat (current_index lb))
           (collect_instances name 0 (services reg)) ∧
    ps ≡ₚ collect_instances name 0 (services reg) ∧
    NoDup ps ∧
    collect_instances name 0 (services reg')
    = collect_instances name 0 (services reg).
Proof.
  intros Hstrat Hk Hpos Hlo Hhi.
  set (instances := collect_instances name 0 (services reg)) in *.
  destruct (select_repeatedly_round_robin name instances k lb reg)
    as (ps & lb' & reg' & Hrep & Hlen & Hps & Hinst); [done..| | done | done |].
  { intros ->. simpl in Hk. lia. }
  assert (ps = rotate (Z.to_nat (current_index lb)) instances) as Hrot.
  { apply list_eq. intros i. destruct (decide (i < k)%nat) as [Hi|Hi].
    - rewrite Hps, lookup_rotate_r by lia. unfold rotate_nat_add.
      by rewrite Z2Nat.id.
    - rewrite !lookup_ge_None_2; [done | rewrite length_rotate; lia | lia]. }
  exists ps, lb', reg'. split_and!; [done | done | | | done].
  - rewrite Hrot. apply rotate_Permutation.
  - rewrite Hrot, rotate_Permutation. apply collect_instances_NoDup.
Qed.

Lemma round_robin_visits_each_once_witness :
  ∃ ps lb' reg',
    select_repeatedly 3 (mkLoadBalancer LB_ROUND_ROBIN 7) "web" web_registry
    = Done (Some <$> ps, lb', reg') ∧
    ps = rotate (Z.to_nat 7) (collect_instances "web" 0 (services web_registry)) ∧
    ps ≡ₚ collect_instances "web" 0 (services web_registry) ∧
    NoDup ps ∧
    collect_instances "web" 0 (services reg')
    = collect_instances "web" 0 (services web_registry).
Proof.
  apply (round_robin_visits_each_once (mkLoadBalancer LB_ROUND_ROBIN 7) "web"
           web_registry 3);
    [reflexivity | reflexivity | lia | simpl; lia | vm_compute; discriminate].
Defined.

(** Past [INT_MAX] the counter wraps to [INT_MIN], and the next selection
    reads [instances[-2]]. *)
Example round_robin_counter_wraps :
  select_repeatedly 2 (mkLoadBalancer LB_ROUND_ROBIN INT_MAX) "web" web_registry
  = Fault.
Proof. vm_compute. reflexivity. Qed.

Example round_robin_three_selections :
  select_repeatedly 3 (mkLoadBalancer LB_ROUND_ROBIN 7) "web" web_registry
  = Done ([Some 1%nat; Some 2%nat; Some 0%nat],
          mkLoadBalancer LB_ROUND_ROBIN 10,
          mkServiceRegistry
            [mkServiceNode "2" "web" "10.0.1.3" 80 1 3;
             mkServiceNode "1" "web" "10.0.1.2" 80 1 3;
             mkServiceNode "0" "web" "10.0.1.1" 80 1 4]
            3).
Proof. vm_compute. reflexivity. Qed.

(** ** The linked list of the message queue *)

Lemma chain_lookup (h : gmap Z Message) (p : Z) (cells : list (Z * Message))
    (a : Z) :
  chain h p cells → a ∈ cells.*1 → is_Some (h !! a) ∧ a ≠ NULL.
Proof.
  revert p. induction cells as [|[a0 m0] rest IH]; intros p Hc Ha; simpl in *.
  - by apply elem_of_nil in Ha.
  - destruct Hc as (-> & Hnn & Hm & Hrest).
    apply elem_of_cons in Ha as [->|Ha]; [by eauto | by eapply IH].
Qed.

(** Writing to a cell outside the list leaves the list as it is. *)
Lemma chain_insert_other (h : gmap Z Message) (p : Z)
    (cells : list (Z * Message)) (a : Z) (m : Message) :
  chain h p cells → a ∉ cells.*1 → chain (<[a := m]> h) p cells.
Proof.
  revert p. induction cells as [|[a0 m0] rest IH]; intros p Hc Ha; simpl in *.
  - done.
  - destruct Hc as (-> & Hnn & Hm & Hrest).
    apply not_elem_of_cons in Ha as [Hne Ha].
    split_and!; [done | done | by rewrite lookup_insert_ne | by apply IH].
Qed.

(** So does freeing one. *)
Lemma chain_delete_other (h : gmap Z Message) (p : Z)
    (cells : list (Z * Message)) (a : Z) :
  chain h p cells → a ∉ cells.*1 → chain (delete a h) p cells.
Proof.
  revert p. induction cells as [|[a0 m0] rest IH]; intros p Hc Ha; simpl in *.
  - done.
  - destruct Hc as (-> & Hnn & Hm & Hrest).
    apply not_elem_of_cons in Ha as [Hne Ha].
    split_and!; [done | done | by rewrite lookup_delete_ne | by apply IH].
Qed.

(** Linking a new cell behind the last cell of the list. *)
Lemma chain_link_behind (h : gmap Z Message) (p : Z)
    (front : list (Z * Message)) (t : Z) (mt : Message) (a : Z) (m : Message) :
  chain h p (front ++ [(t, mt)]) →
  NoDup (front ++ [(t, mt)]).*1 →
  h !! a = None → a ≠ NULL → next m = NULL →
  chain (<[t := set_next mt a]> (<[a := m]> h)) p
    (front ++ [(t, set_next mt a); (a, m)]).
Proof.
  intros Hc Hnd Ha Hnn Hnext. revert p Hc Hnd.
  induction front as [|[a0 m0] rest IH]; intros p Hc Hnd; simpl in *.
  - destruct Hc as (-> & Htn & Ht & Hend).
    assert (t ≠ a) by congruence.
    split_and!; try done.
    + by rewrite lookup_insert_eq.
    + rewrite lookup_insert_ne by done. by rewrite lookup_insert_eq.
  - destruct Hc as (-> & Ha0 & Hm0 & Hrest).
    apply NoDup_cons in Hnd as [Hnotin Hnd].
    assert (a0 ≠ t).
    { intros ->. apply Hnotin. rewrite fmap_app. set_solver. }
    assert (a0 ≠ a) by congruence.
    split_and!; [done | done | | by apply IH].
    by rewrite !lookup_insert_ne.
Qed.

(** The locked section of [eghact_send_message]: the new cell goes behind
    the last one, and what the cells carry grows by the new message at the
    end. *)
Lemma enqueue_rep (h : gmap Z Message) (q : MessageQueue)
    (cells : list (Z * Message)) (a : Z) (m : Message) :
  queue_rep h q cells →
  h !! a = None → a ≠ NULL → next m = NULL →
  ∃ h' q' cells',
    enqueue a (<[a := m]> h) q = Done (h', q') ∧
    queue_rep h' q' cells' ∧
    contents cells' = fifo_enqueue (content m) (contents cells).
Proof.
  intros (Hc & Hnd & Htail) Ha Hnn Hnext. unfold enqueue.
  induction cells as [|[t mt] front _] using rev_ind.
  - simpl in *. rewrite Htail. simpl.
    exists (<[a := m]> h), (mkMessageQueue a a), [(a, m)].
    split_and!; [done | | done].
    split_and!; simpl.
    + split_and!; [done | done | by rewrite lookup_insert_eq | done].
    + apply NoDup_singleton.
    + done.
  - rewrite fmap_app in Htail. simpl in Htail. rewrite last_snoc in Htail.
    simpl in Htail. rewrite Htail.
    destruct (chain_lookup h (head q) (front ++ [(t, mt)]) t Hc)
      as [[mt' Hmt] Htn]; [rewrite fmap_app; set_solver|].
    assert (t ≠ a) by congruence.
    assert (chain h (head q) (front ++ [(t, mt)]) → h !! t = Some mt) as Hlast.
    { clear. generalize (head q).
      induction front as [|[a0 m0] rest IH]; simpl; intros p Hc.
      - by destruct Hc as (_ & _ & ? & _).
      - destruct Hc as (_ & _ & _ & Hrest). by eapply IH. }
    specialize (Hlast Hc). assert (mt' = mt) as -> by congruence.
    destruct (Z.eqb_spec t NULL) as [|_]; [done|].
    rewrite lookup_insert_ne by done. rewrite Hmt.
    eexists _, _, (front ++ [(t, set_next mt a); (a, m)]).
    split_and!; [done | |].
    + split_and!; simpl.
      * by apply chain_link_behind.
      * rewrite fmap_app in *. simpl in *.
        apply NoDup_app in Hnd as (Hf & Hft & _).
        apply NoDup_app. split_and!; [done | |].
        -- intros x Hx Hx2. apply elem_of_cons in Hx2 as [->|Hx2].
           ++ by apply (Hft t Hx), list_elem_of_singleton.
           ++ apply list_elem_of_singleton in Hx2 as ->.
              destruct (chain_lookup h (head q) (front ++ [(t, mt)]) a Hc)
                as [[? ?] _]; [rewrite fmap_app; apply elem_of_app; by left | congruence].
        -- apply NoDup_cons. split; [|apply NoDup_singleton].
           intros Hin. apply list_elem_of_singleton in Hin. done.
      * rewrite fmap_app. simpl.
        replace (front.*1 ++ [t; a]) with ((front.*1 ++ [t]) ++ [a])
          by (by rewrite <-(assoc_L (++))).
        by rewrite last_snoc.
    + unfold contents, fifo_enqueue. rewrite !fmap_app. simpl.
      by rewrite <-(assoc_L (++)).
Qed.

(** The locked section of the dispatcher: the head cell comes off, the
    rest of the list stays. *)
Lemma dequeue_rep (h : gmap Z Message) (q : MessageQueue)
    (a : Z) (m : Message) (cells : list (Z * Message)) :
  queue_rep h q ((a, m) :: cells) →
  ∃ q',
    head q = a ∧ a ≠ NULL ∧
    dequeue h q = Done (a, m, q') ∧
    queue_rep (delete a h) q' cells.
Proof.
  intros (Hc & Hnd & Htail). simpl in Hc, Hnd.
  destruct Hc as (Hhead & Hnn & Hm & Hrest).
  apply NoDup_cons in Hnd as [Hnotin Hnd].
  unfold dequeue. rewrite Hhead, Hm.
  eexists. split_and!; [done | done | done |].
  split_and!; simpl.
  - by apply chain_delete_other.
  - done.
  - destruct cells as [|[a2 m2] rest]; simpl in *.
    + by rewrite Hrest.
    + destruct Hrest as (-> & Ha2 & _).
      destruct (Z.eqb_spec a2 NULL) as [|_]; [done|].
      rewrite Htail. done.
Qed.

(** ** What a selection leaves alone *)

Lemma select_service_instance_empty (lb : LoadBalancer) (name : string)
    (reg : ServiceRegistry) :
  collect_instances name 0 (services reg) = [] →
  select_service_instance lb name reg = Done (None, lb, reg).
Proof. intros Hnil. unfold select_service_instance. by rewrite Hnil. Qed.

(** A selection that returns the null pointer has changed nothing. *)
Lemma select_service_instance_None (lb lb' : LoadBalancer) (name : string)
    (reg reg' : ServiceRegistry) :
  select_service_instance lb name reg = Done (None, lb', reg') →
  lb' = lb ∧ reg' = reg.
Proof.
  unfold select_service_instance.
  destruct (0 <? _); [|by intros [= <- <-]].
  destruct (strategy lb).
  - destruct (array_get _ _) as [q|]; [|done]. simpl.
    destruct (node_at _ q); done.
  - destruct (array_get _ _) as [first|]; [|done]. simpl.
    destruct (least_connections_loop _ _ _) as [q|]; [|done]. simpl.
    destruct (node_at _ q); done.
  - by intros [= <- <-].
  - by intros [= <- <-].
Qed.

(** No selection touches the ids or the number of the nodes. *)
Lemma select_service_instance_ids (lb lb' : LoadBalancer) (name : string)
    (reg reg' : ServiceRegistry) (selected : NodePtr) :
  select_service_instance lb name reg = Done (selected, lb', reg') →
  service_id <$> services reg' = service_id <$> services reg ∧
  length (services reg') = length (services reg).
Proof.
  intros Hsel. destruct selected as [p|].
  - apply select_service_instance_Some in Hsel as (_ & n & Hn & ->). simpl.
    rewrite list_fmap_insert, length_insert. split; [|done].
    apply list_insert_id. by rewrite list_lookup_fmap, Hn.
  - by apply select_service_instance_None in Hsel as [_ ->].
Qed.

(** Under least connections a selection always comes to an end. *)
Lemma select_least_connections_done (lb : LoadBalancer) (name : string)
    (reg : ServiceRegistry) :
  strategy lb = LB_LEAST_CONNECTIONS →
  ∃ selected reg',
    select_service_instance lb name reg = Done (selected, lb, reg').
Proof.
  intros Hstrat.
  destruct (collect_instances name 0 (services reg)) as [|first rest] eqn:Hc.
  { exists None, reg. by apply select_service_instance_empty. }
  unfold select_service_instance. rewrite Hstrat, Hc.
  pose proof (collect_instances_sorted name (services reg) 0) as Hsorted.
  pose proof (collect_instances_valid name (services reg)) as Hvalid.
  rewrite Hc in Hsorted, Hvalid.
  simpl length. rewrite Nat2Z.inj_succ.
  destruct (Z.ltb_spec 0 (Z.succ (Z.of_nat (length rest)))); [|lia].
  unfold array_get. simpl. rewrite drop_0.
  destruct (least_connections_loop_min (services reg) rest first Hsorted)
    as (r & n & Hloop & _ & Hn & _).
  { intros q Hq. apply Hvalid in Hq as (m & Hm & _). by exists m. }
  rewrite Hloop. simpl. unfold node_at. rewrite Hn. simpl. by eauto.
Qed.

Lemma counter_room_S (n : nat) (lb : LoadBalancer) :
  counter_room (S n) lb → counter_room n lb.
Proof. unfold counter_room. intros H Hs. specialize (H Hs). lia. Qed.

(** While the counter has room, a selection comes to an end and leaves
    room for one selection less. *)
Lemma select_service_instance_total (n : nat) (lb : LoadBalancer)
    (name : string) (reg : ServiceRegistry) :
  counter_room (S n) lb →
  ∃ selected lb' reg',
    select_service_instance lb name reg = Done (selected, lb', reg') ∧
    counter_room n lb'.
Proof.
  intros Hroom.
  destruct (collect_instances name 0 (services reg)) as [|first rest] eqn:Hc.
  { exists None, lb, reg.
    split; [by apply select_service_instance_empty | by apply counter_room_S]. }
  destruct (strategy lb) eqn:Hstrat.
  - destruct (Hroom Hstrat) as [Hlo Hhi].
    destruct (select_round_robin_step lb name reg Hstrat)
      as (p & m & _ & _ & Hsel); [by rewrite Hc | lia |].
    eexists _, _, _. split; [exact Hsel|].
    intros _. simpl. lia.
  - destruct (select_least_connections_done lb name reg Hstrat)
      as (selected & reg' & Hsel).
    exists selected, lb, reg'. split; [done | by apply counter_room_S].
  - exists None, lb, reg. split; [|by apply counter_room_S].
    unfold select_service_instance. rewrite Hstrat, Hc. done.
  - exists None, lb, reg. split; [|by apply counter_room_S].
    unfold select_service_instance. rewrite Hstrat, Hc. done.
Qed.

(** ** Health check worker *)

Lemma health_check_nodes_spec (probe : ServiceNode → ProbeResult)
    (nodes : list ServiceNode) :
  health_check_nodes probe nodes =
    ((λ n, set_health n (probed_health (probe n))) <$> nodes,
     (λ n, Probe (host n) (port n)) <$> nodes).
Proof.
  induction nodes as [|n rest IH]; simpl; [done|]. by rewrite IH.
Qed.

Lemma probes_under_lock_held (nodes : list ServiceNode)
    (rest : list HealthStep) :
  probes_under_lock true (((λ n, Probe (host n) (port n)) <$> nodes) ++ rest)
  = ((λ n, (host n, port n)) <$> nodes) ++ probes_under_lock true rest.
Proof. induction nodes as [|n l IH]; simpl; [done|]. f_equal. apply IH. Qed.

(** C9, as the code has it: one turn of the health checker takes the
    registry lock once, probes every node of the registry in list order
    while it holds the lock (no snapshot is taken, each health status is
    written straight into the node), releases the lock once after the last
    probe, and then sleeps five seconds.  Every probe of the turn runs
    under the lock. *)
Theorem health_check_probes_under_lock
    (probe : ServiceNode → ProbeResult) (reg : ServiceRegistry) :
  health_check_iteration probe reg =
    (mkServiceRegistry
       ((λ n, set_health n (probed_health (probe n))) <$> services reg)
       (num_services reg),
     RegistryLock :: ((λ n, Probe (host n) (port n)) <$> services reg)
       ++ [RegistryUnlock; Sleep 5]) ∧
  probes_under_lock false (health_check_iteration probe reg).2
  = (λ n, (host n, port n)) <$> services reg.
Proof.
  unfold health_check_iteration. rewrite health_check_nodes_spec.
  split; [done|]. simpl. rewrite probes_under_lock_held. simpl.
  by rewrite app_nil_r.
Qed.

(** C9 fails as stated: with one node in the registry, the one probe of
    the turn runs while the registry lock is held. *)
Lemma health_check_probe_holds_lock :
  (health_check_iteration (λ _, ConnectFailed) (registry billing_orchestrator)).2
  = [RegistryLock; Probe "10.0.0.9" 9000; RegistryUnlock; Sleep 5] ∧
  probes_under_lock false
    (health_check_iteration (λ _, ConnectFailed)
       (registry billing_orchestrator)).2
  = [("10.0.0.9", 9000)] ∧
  probes_under_lock false
    (health_check_iteration (λ _, ConnectFailed)
       (registry billing_orchestrator)).2
  ≠ [].
Proof. split_and!; [reflexivity | reflexivity | discriminate]. Qed.

(** ** The ids in the registry *)

(** A call either leaves the ids of the registry and the generator as they
    were, or puts one id, new to the generator, at the head. *)
Lemma step_ids (malloc : gmap Z Message → Z) (c : Call) (rt rt' : Runtime)
    (reply : Reply) :
  step malloc c rt = Done (reply, rt') →
  (registered_ids rt' = registered_ids rt ∧ issued rt' = issued rt) ∨
  (∃ id, (id ∉ issued rt) ∧
         registered_ids rt' = id :: registered_ids rt ∧
         issued rt' = {[id]} ∪ issued rt).
Proof.
  unfold registered_ids. destruct c as [name hst prt|name|from to body|probe|];
    simpl.
  - intros [= <- <-]. right. exists (fresh (issued rt)).
    split; [apply is_fresh | done].
  - unfold eghact_discover_service.
    destruct (select_service_instance _ _ _) as [[[sel lb'] reg']|] eqn:Hsel;
      [|done].
    simpl. intros [= <- <-]. left. simpl.
    by apply select_service_instance_ids in Hsel as [-> _].
  - unfold eghact_send_message. destruct (malloc (heap rt) =? NULL); [done|].
    destruct (enqueue _ _ _) as [[h' q']|]; [|done].
    simpl. intros [= <- <-]. by left.
  - unfold health_check_iteration. rewrite health_check_nodes_spec.
    intros [= <- <-]. left. simpl. split; [|done].
    rewrite <-list_fmap_compose. by apply list_fmap_ext.
  - unfold message_dispatcher_iteration.
    destruct (head _ =? NULL); [intros [= <- <-]; by left|].
    destruct (dequeue _ _) as [[[msg m] q']|]; [|done]. simpl.
    unfold eghact_discover_service. simpl.
    destruct (select_service_instance _ _ _) as [[[sel lb'] reg']|] eqn:Hsel;
      [|done].
    simpl. intros [= <- <-]. left. simpl.
    by apply select_service_instance_ids in Hsel as [-> _].
Qed.

(** Over a sequence of calls the ids that were in the registry stay, in
    their places; ids are only added at the head. *)
Lemma run_ids_suffix (malloc : gmap Z Message → Z) (calls : list Call) :
  ∀ (rt rt' : Runtime) (replies : list Reply),
    run malloc calls rt = Done (replies, rt') →
    ∃ new, registered_ids rt' = new ++ registered_ids rt.
Proof.
  induction calls as [|c rest IH]; intros rt rt' replies; simpl.
  - intros [= <- <-]. by exists [].
  - destruct (step malloc c rt) as [[reply rt1]|] eqn:Hstep; [|done]. simpl.
    destruct (run malloc rest rt1) as [[replies' rt2]|] eqn:Hrun; [|done].
    simpl. intros [= <- <-].
    apply IH in Hrun as [new Hnew].
    apply step_ids in Hstep as [[Hids _]|(id & _ & Hids & _)].
    + exists new. by rewrite Hnew, Hids.
    + exists (new ++ [id]). by rewrite Hnew, Hids, <-(assoc_L (++)).
Qed.

Lemma step_ids_tracked (malloc : gmap Z Message → Z) (c : Call)
    (rt rt' : Runtime) (reply : Reply) :
  step malloc c rt = Done (reply, rt') → ids_tracked rt → ids_tracked rt'.
Proof.
  intros Hstep [Hnd Hsub].
  apply step_ids in Hstep as [[Hids Hiss]|(id & Hfresh & Hids & Hiss)];
    unfold ids_tracked; rewrite Hids, Hiss.
  - done.
  - split.
    + apply NoDup_cons. split; [|done]. intros Hin. by apply Hfresh, Hsub.
    + intros id' Hin. apply elem_of_union.
      apply elem_of_cons in Hin as [->|Hin];
        [left; by apply elem_of_singleton | right; by apply Hsub].
Qed.

Lemma run_ids_tracked (malloc : gmap Z Message → Z) (calls : list Call) :
  ∀ (rt rt' : Runtime) (replies : list Reply),
    run malloc calls rt = Done (replies, rt') →
    ids_tracked rt → ids_tracked rt'.
Proof.
  induction calls as [|c rest IH]; intros rt rt' replies; simpl.
  - by intros [= <- <-].
  - destruct (step malloc c rt) as [[reply rt1]|] eqn:Hstep; [|done]. simpl.
    destruct (run malloc rest rt1) as [[replies' rt2]|] eqn:Hrun; [|done].
    simpl. intros [= <- <-] Hok.
    eapply IH; [done|]. by eapply step_ids_tracked.
Qed.

Lemma initial_runtime_ids_tracked : ids_tracked initial_runtime.
Proof.
  split; [apply NoDup_nil_2|]. intros id Hin. by apply elem_of_nil in Hin.
Qed.

(** C7: in every runtime reached from the initial one by a sequence of
    calls, [eghact_register_service] returns 0 for every name, host and
    port, and puts at the head of the registry a node with that name, host
    and port, with health status 1 (HEALTHY) and load 0, whose id differs
    from the id of every node already in the registry; after the call no
    two nodes of the registry share an id. *)
Theorem register_creates_fresh_healthy_node
    (malloc : gmap Z Message → Z) (calls : list Call) (replies : list Reply)
    (rt : Runtime) (name hst : string) (prt : Z) :
  run malloc calls initial_runtime = Done (replies, rt) →
  ∃ node rt',
    eghact_register_service rt name hst prt = (0, rt') ∧
    services (registry (orch rt')) = node :: services (registry (orch rt)) ∧
    service_name node = name ∧ host node = hst ∧ port node = prt ∧
    health_status node = 1 ∧ load node = 0 ∧
    (∀ n, n ∈ services (registry (orch rt)) → service_id n ≠ service_id node) ∧
    NoDup (registered_ids rt').
Proof.
  intros Hrun.
  destruct (run_ids_tracked malloc calls _ _ _ Hrun initial_runtime_ids_tracked)
    as [Hnd Hsub].
  assert (fresh (issued rt) ∉ registered_ids rt) as Hfresh.
  { intros Hin. by apply (is_fresh (issued rt)), Hsub. }
  eexists _, _. unfold eghact_register_service. simpl.
  split_and!; try done.
  - intros n Hn Heq. apply Hfresh. unfold registered_ids.
    simpl in Heq. rewrite <-Heq. by apply list_elem_of_fmap_2.
  - unfold registered_ids. simpl. by apply NoDup_cons.
Qed.

Lemma register_creates_fresh_healthy_node_witness :
  ∃ node rt',
    eghact_register_service two_api_runtime "api" "10.0.0.3" 80 = (0, rt') ∧
    services (registry (orch rt'))
    = node :: services (registry (orch two_api_runtime)) ∧
    service_name node = "api" ∧ host node = "10.0.0.3" ∧ port node = 80 ∧
    health_status node = 1 ∧ load node = 0 ∧
    (∀ n, n ∈ services (registry (orch two_api_runtime)) →
          service_id n ≠ service_id node) ∧
    NoDup (registered_ids rt').
Proof.
  apply (register_creates_fresh_healthy_node first_free
           [Register "api" "10.0.0.1" 80; Register "api" "10.0.0.2" 80]
           [Registered 0; Registered 0]).
  reflexivity.
Defined.

(** C8, as the code has it: the orchestrator has no operation that removes
    a node.  Whatever sequence of calls is made (registrations,
    discoveries, sends, turns of the health checker and of the dispatcher),
    every node id that was in the registry is still in it afterwards, in
    its place; the list of ids only grows at its head. *)
Theorem registry_never_loses_a_node
    (malloc : gmap Z Message → Z) (calls : list Call) (replies : list Reply)
    (rt rt' : Runtime) :
  run malloc calls rt = Done (replies, rt') →
  (∃ new, registered_ids rt' = new ++ registered_ids rt) ∧
  ∀ id, id ∈ registered_ids rt → id ∈ registered_ids rt'.
Proof.
  intros Hrun. apply run_ids_suffix in Hrun as [new Hnew].
  split; [by exists new|].
  intros id Hin. rewrite Hnew. apply elem_of_app. by right.
Qed.

Lemma registry_never_loses_a_node_witness :
  ∃ (replies : list Reply) (rt' : Runtime),
    run first_free
      [HealthCheck (λ _, ConnectFailed); Discover "api";
       SendMessage "api" "web" "ping"; Dispatch;
       Register "api" "10.0.0.3" 80]
      two_api_runtime
    = Done (replies, rt') ∧
    (∃ new, registered_ids rt' = new ++ registered_ids two_api_runtime) ∧
    ∀ id, id ∈ registered_ids two_api_runtime → id ∈ registered_ids rt'.
Proof.
  destruct (run first_free
              [HealthCheck (λ _, ConnectFailed); Discover "api";
               SendMessage "api" "web" "ping"; Dispatch;
               Register "api" "10.0.0.3" 80]
              two_api_runtime) as [[replies rt']|] eqn:Hrun;
    [|vm_compute in Hrun; discriminate Hrun].
  exists replies, rt'. split; [reflexivity|].
  exact (registry_never_loses_a_node first_free _ replies _ rt' Hrun).
Defined.

(** C8 fails as stated: the registry holds the node with id "0", and no
    call, with any allocator, ends with that node gone. *)
Lemma no_call_removes_a_node :
  "0" ∈ registered_ids billing_runtime ∧
  ¬ ∃ (malloc : gmap Z Message → Z) (c : Call) (reply : Reply) (rt' : Runtime),
      step malloc c billing_runtime = Done (reply, rt') ∧
      "0" ∉ registered_ids rt'.
Proof.
  split; [by apply list_elem_of_singleton|].
  intros (malloc & c & reply & rt' & Hstep & Hgone). apply Hgone.
  apply step_ids in Hstep as [[-> _]|(id & _ & -> & _)].
  - by apply list_elem_of_singleton.
  - right. by apply list_elem_of_singleton.
Qed.

(** ** Sending and dispatching *)

Lemma first_free_fresh (h : gmap Z Message) : h !! first_free h = None.
Proof.
  unfold first_free. apply not_elem_of_dom.
  pose proof (is_fresh ({[NULL]} ∪ dom h)) as Hf. set_solver.
Qed.

Lemma first_free_not_null (h : gmap Z Message) : first_free h ≠ NULL.
Proof.
  unfold first_free.
  pose proof (is_fresh ({[NULL]} ∪ dom h)) as Hf. set_solver.
Qed.

(** On an empty queue the dispatcher waits. *)
Lemma dispatcher_waits (rt : Runtime) :
  queue_rep (heap rt) (message_queue (orch rt)) [] →
  message_dispatcher_iteration rt = Done (Waiting, rt).
Proof.
  intros (Hc & _ & _). simpl in Hc. unfold message_dispatcher_iteration.
  by rewrite Hc.
Qed.

(** On a queue that is not empty, while the counter has room, the
    dispatcher takes the head message, delivers or discards it, frees its
    cell, and leaves the rest of the queue. *)
Lemma dispatcher_handles_head (n : nat) (rt : Runtime) (a : Z) (m : Message)
    (cells : list (Z * Message)) :
  queue_rep (heap rt) (message_queue (orch rt)) ((a, m) :: cells) →
  counter_room (S n) (load_balancer (orch rt)) →
  ∃ d rt',
    message_dispatcher_iteration rt = Done (d, rt') ∧
    handled d = Some (content m) ∧
    heap rt' = delete a (heap rt) ∧
    queue_rep (heap rt') (message_queue (orch rt')) cells ∧
    counter_room n (load_balancer (orch rt')).
Proof.
  intros Hrep Hroom.
  apply dequeue_rep in Hrep as (q' & Hhead & Hnn & Hdeq & Hrep').
  destruct (select_service_instance_total n (load_balancer (orch rt))
              (to_service m) (registry (orch rt)) Hroom)
    as (sel & lb' & reg' & Hsel & Hroom').
  unfold message_dispatcher_iteration. rewrite Hhead.
  destruct (Z.eqb_spec a NULL) as [|_]; [done|].
  rewrite Hdeq. simpl. unfold eghact_discover_service. simpl.
  rewrite Hsel. simpl.
  eexists _, _. split; [done|]. simpl.
  split_and!; [by destruct sel | done | done | done].
Qed.

Section WithAllocator.

Variable malloc : gmap Z Message → Z.
Hypothesis malloc_fresh : ∀ h, h !! malloc h = None.
Hypothesis malloc_not_null : ∀ h, malloc h ≠ NULL.

(** [eghact_send_message] returns 0 and puts the message at the end of the
    queue; it reads neither the registry nor the balancer. *)
Lemma send_message_rep (rt : Runtime) (cells : list (Z * Message))
    (from to body : string) :
  queue_rep (heap rt) (message_queue (orch rt)) cells →
  ∃ rt' cells',
    eghact_send_message malloc rt from to body = Done (0, rt') ∧
    queue_rep (heap rt') (message_queue (orch rt')) cells' ∧
    contents cells' = fifo_enqueue (from, to, body) (contents cells) ∧
    registry (orch rt') = registry (orch rt) ∧
    load_balancer (orch rt') = load_balancer (orch rt) ∧
    issued rt' = issued rt.
Proof.
  intros Hrep. unfold eghact_send_message.
  destruct (Z.eqb_spec (malloc (heap rt)) NULL) as [Hnull|_];
    [by apply malloc_not_null in Hnull|].
  destruct (enqueue_rep (heap rt) _ cells (malloc (heap rt))
              (mkMessage from to body 5 NULL) Hrep)
    as (h' & q' & cells' & Henq & Hrep' & Hcont); [done..|].
  rewrite Henq. simpl. by eexists _, cells'.
Qed.

(** One call, seen from the queue. *)
Lemma step_refines_fifo (c : Call) (rest : list Call) (rt : Runtime)
    (cells : list (Z * Message)) :
  queue_rep (heap rt) (message_queue (orch rt)) cells →
  counter_room (selections (c :: rest)) (load_balancer (orch rt)) →
  ∃ reply rt' cells',
    step malloc c rt = Done (reply, rt') ∧
    queue_rep (heap rt') (message_queue (orch rt')) cells' ∧
    counter_room (selections rest) (load_balancer (orch rt')) ∧
    fifo_run (c :: rest) (contents cells) =
      (handled_in [reply] ++ (fifo_run rest (contents cells')).1,
       (fifo_run rest (contents cells')).2).
Proof.
  intros Hrep Hroom.
  destruct c as [name hst prt|name|from to body|probe|]; simpl in *.
  - eexists _, _, cells. split; [done|]. simpl.
    split_and!; [done | done | by destruct (fifo_run _ _)].
  - destruct (select_service_instance_total (selections rest)
                (load_balancer (orch rt)) name (registry (orch rt)) Hroom)
      as (sel & lb' & reg' & Hsel & Hroom').
    unfold eghact_discover_service. rewrite Hsel. simpl.
    eexists _, _, cells. split; [done|]. simpl.
    split_and!; [done | done | by destruct (fifo_run _ _)].
  - destruct (send_message_rep rt cells from to body Hrep)
      as (rt' & cells' & Hsend & Hrep' & Hcont & _ & Hlb & _).
    rewrite Hsend. simpl. exists (Accepted 0), rt', cells'.
    split_and!; [done | done | by rewrite Hlb |].
    rewrite Hcont. simpl. by destruct (fifo_run _ _).
  - unfold health_check_iteration. rewrite health_check_nodes_spec.
    eexists _, _, cells. split; [done|]. simpl.
    split_and!; [done | done | by destruct (fifo_run _ _)].
  - destruct cells as [|[a m] cells].
    + rewrite (dispatcher_waits rt Hrep). simpl.
      exists (Dispatched Waiting), rt, []. simpl.
      split_and!; [done | done | by apply counter_room_S |].
      by destruct (fifo_run _ _).
    + destruct (dispatcher_handles_head (selections rest) rt a m cells Hrep Hroom)
        as (d & rt' & Hit & Hd & _ & Hrep' & Hroom').
      rewrite Hit. simpl. exists (Dispatched d), rt', cells.
      split_and!; [done | done | done |]. simpl. rewrite Hd.
      by destruct (fifo_run _ _).
Qed.

(** A sequence of calls, seen from the queue. *)
Lemma run_refines_fifo (calls : list Call) :
  ∀ (rt : Runtime) (cells : list (Z * Message)),
    queue_rep (heap rt) (message_queue (orch rt)) cells →
    counter_room (selections calls) (load_balancer (orch rt)) →
    ∃ replies rt' cells',
      run malloc calls rt = Done (replies, rt') ∧
      queue_rep (heap rt') (message_queue (orch rt')) cells' ∧
      fifo_run calls (contents cells) = (handled_in replies, contents cells').
Proof.
  induction calls as [|c rest IH]; intros rt cells Hrep Hroom.
  - exists [], rt, cells. by simpl.
  - destruct (step_refines_fifo c rest rt cells Hrep Hroom)
      as (reply & rt1 & cells1 & Hstep & Hrep1 & Hroom1 & Hfifo).
    destruct (IH rt1 cells1 Hrep1 Hroom1)
      as (replies & rt2 & cells2 & Hrun & Hrep2 & Hfifo2).
    exists (reply :: replies), rt2, cells2.
    split_and!; [by simpl; rewrite Hstep; simpl; rewrite Hrun | done |].
    rewrite Hfifo, Hfifo2. simpl. by destruct reply.
Qed.

End WithAllocator.

(** Under round robin (with room in the counter) and under least
    connections, a selection for a service with a healthy instance returns
    an instance, and leaves every array of healthy instances as it was. *)
Lemma select_service_instance_available (n : nat) (lb : LoadBalancer)
    (name : string) (reg : ServiceRegistry) :
  strategy lb = LB_ROUND_ROBIN ∨ strategy lb = LB_LEAST_CONNECTIONS →
  counter_room (S n) lb →
  collect_instances name 0 (services reg) ≠ [] →
  ∃ p lb' reg',
    select_service_instance lb name reg = Done (Some p, lb', reg') ∧
    strategy lb' = strategy lb ∧
    counter_room n lb' ∧
    ∀ other, collect_instances other 0 (services reg')
             = collect_instances other 0 (services reg).
Proof.
  intros Hstrat Hroom Hne.
  destruct (select_service_instance_total n lb name reg Hroom)
    as (sel & lb' & reg' & Hsel & Hroom').
  destruct sel as [p|].
  - exists p, lb', reg'. split_and!; [done | | done |].
    + revert Hsel. unfold select_service_instance.
      destruct (0 <? _); [|done].
      destruct (strategy lb) eqn:Hs.
      * destruct (array_get _ _); [|done]. simpl.
        destruct (node_at _ _); [|done]. simpl. by intros [= _ <- _].
      * destruct (array_get _ _); [|done]. simpl.
        destruct (least_connections_loop _ _ _); [|done]. simpl.
        destruct (node_at _ _); [|done]. simpl. by intros [= _ <- _].
      * done.
      * done.
    + apply select_service_instance_Some in Hsel as (_ & m & Hm & ->).
      intros other. simpl. by apply collect_instances_set_load.
  - exfalso. revert Hsel. unfold select_service_instance.
    destruct (collect_instances name 0 (services reg)) as [|first rest] eqn:Hc;
      [done|].
    simpl length. rewrite Nat2Z.inj_succ.
    destruct (Z.ltb_spec 0 (Z.succ (Z.of_nat (length rest)))); [|lia].
    destruct Hstrat as [Hs|Hs]; rewrite Hs.
    + destruct (array_get _ _); [|done]. simpl.
      destruct (node_at _ _); done.
    + destruct (array_get _ _); [|done]. simpl.
      destruct (least_connections_loop _ _ _); [|done]. simpl.
      destruct (node_at _ _); done.
Qed.

(** When the destination has a healthy instance, the head message is
    delivered. *)
Lemma dispatcher_delivers_head (n : nat) (rt : Runtime) (a : Z) (m : Message)
    (cells : list (Z * Message)) :
  queue_rep (heap rt) (message_queue (orch rt)) ((a, m) :: cells) →
  strategy (load_balancer (orch rt)) = LB_ROUND_ROBIN
  ∨ strategy (load_balancer (orch rt)) = LB_LEAST_CONNECTIONS →
  counter_room (S n) (load_balancer (orch rt)) →
  collect_instances (to_service m) 0 (services (registry (orch rt))) ≠ [] →
  ∃ p rt',
    message_dispatcher_iteration rt = Done (Delivered p m, rt') ∧
    queue_rep (heap rt') (message_queue (orch rt')) cells ∧
    strategy (load_balancer (orch rt')) = strategy (load_balancer (orch rt)) ∧
    counter_room n (load_balancer (orch rt')) ∧
    ∀ other, collect_instances other 0 (services (registry (orch rt')))
             = collect_instances other 0 (services (registry (orch rt))).
Proof.
  intros Hrep Hstrat Hroom Hne.
  apply dequeue_rep in Hrep as (q' & Hhead & Hnn & Hdeq & Hrep').
  destruct (select_service_instance_available n (load_balancer (orch rt))
              (to_service m) (registry (orch rt)) Hstrat Hroom Hne)
    as (p & lb' & reg' & Hsel & Hs' & Hroom' & Hstable).
  unfold message_dispatcher_iteration. rewrite Hhead.
  destruct (Z.eqb_spec a NULL) as [|_]; [done|].
  rewrite Hdeq. simpl. unfold eghact_discover_service. simpl.
  rewrite Hsel. simpl. by eexists _, _.
Qed.

Section QueueClaims.

Variable malloc : gmap Z Message → Z.
Hypothesis malloc_fresh : ∀ h, h !! malloc h = None.
Hypothesis malloc_not_null : ∀ h, malloc h ≠ NULL.

(** C6: with an allocator that answers with unused, non-null addresses,
    the linked-list queue behaves as the FIFO list.  (1) From any runtime
    whose queue holds the cells [cells], any sequence of calls, sends and
    dispatcher turns mixed with the other calls, runs to its end while the
    round-robin counter has room, and what the dispatcher takes off the
    queue turn by turn, and what is left in the queue, is what [fifo_run]
    gives on the list.  (2) On an empty queue, three sends and then three
    dispatcher turns take the three messages off in the order they were
    sent.  (3) When every destination has a healthy instance, under round
    robin or least connections, the three turns call [deliver_message] on
    the three messages in that order. *)
Theorem message_queue_is_fifo :
  (∀ (calls : list Call) (rt : Runtime) (cells : list (Z * Message)),
     queue_rep (heap rt) (message_queue (orch rt)) cells →
     counter_room (selections calls) (load_balancer (orch rt)) →
     ∃ replies rt' cells',
       run malloc calls rt = Done (replies, rt') ∧
       queue_rep (heap rt') (message_queue (orch rt')) cells' ∧
       (handled_in replies, contents cells') = fifo_run calls (contents cells)) ∧
  (∀ (rt : Runtime) (f1 t1 b1 f2 t2 b2 f3 t3 b3 : string),
     queue_rep (heap rt) (message_queue (orch rt)) [] →
     counter_room 3 (load_balancer (orch rt)) →
     ∃ replies rt',
       run malloc
         [SendMessage f1 t1 b1; SendMessage f2 t2 b2; SendMessage f3 t3 b3;
          Dispatch; Dispatch; Dispatch] rt
       = Done (replies, rt') ∧
       handled_in replies
       = [Some (f1, t1, b1); Some (f2, t2, b2); Some (f3, t3, b3)] ∧
       queue_rep (heap rt') (message_queue (orch rt')) []) ∧
  (∀ (rt : Runtime) (f1 t1 b1 f2 t2 b2 f3 t3 b3 : string),
     queue_rep (heap rt) (message_queue (orch rt)) [] →
     counter_room 3 (load_balancer (orch rt)) →
     strategy (load_balancer (orch rt)) = LB_ROUND_ROBIN
     ∨ strategy (load_balancer (orch rt)) = LB_LEAST_CONNECTIONS →
     (∀ t, t ∈ [t1; t2; t3] →
           collect_instances t 0 (services (registry (orch rt))) ≠ []) →
     ∃ p1 p2 p3 c1 c2 c3 rt',
       run malloc
         [SendMessage f1 t1 b1; SendMessage f2 t2 b2; SendMessage f3 t3 b3;
          Dispatch; Dispatch; Dispatch] rt
       = Done ([Accepted 0; Accepted 0; Accepted 0;
                Dispatched (Delivered p1 c1); Dispatched (Delivered p2 c2);
                Dispatched (Delivered p3 c3)], rt') ∧
       content c1 = (f1, t1, b1) ∧ content c2 = (f2, t2, b2) ∧
       content c3 = (f3, t3, b3)).
Proof.
  split_and!.
  - intros calls rt cells Hrep Hroom.
    destruct (run_refines_fifo malloc malloc_fresh malloc_not_null calls rt
                cells Hrep Hroom) as (replies & rt' & cells' & ? & ? & ?).
    by exists replies, rt', cells'.
  - intros rt f1 t1 b1 f2 t2 b2 f3 t3 b3 Hrep Hroom.
    destruct (run_refines_fifo malloc malloc_fresh malloc_not_null
                [SendMessage f1 t1 b1; SendMessage f2 t2 b2;
                 SendMessage f3 t3 b3; Dispatch; Dispatch; Dispatch]
                rt [] Hrep Hroom)
      as (replies & rt' & cells' & Hrun & Hrep' & Hfifo).
    simpl in Hfifo. injection Hfifo as Hh Hc.
    exists replies, rt'. split_and!; [done | done |].
    by destruct cells'.
  - intros rt f1 t1 b1 f2 t2 b2 f3 t3 b3 Hrep Hroom Hstrat Havail.
    destruct (send_message_rep malloc malloc_fresh malloc_not_null rt []
                f1 t1 b1 Hrep)
      as (rt1 & cells1 & Hs1 & Hrep1 & Hc1 & Hreg1 & Hlb1 & _).
    destruct (send_message_rep malloc malloc_fresh malloc_not_null rt1 cells1
                f2 t2 b2 Hrep1)
      as (rt2 & cells2 & Hs2 & Hrep2 & Hc2 & Hreg2 & Hlb2 & _).
    destruct (send_message_rep malloc malloc_fresh malloc_not_null rt2 cells2
                f3 t3 b3 Hrep2)
      as (rt3 & cells3 & Hs3 & Hrep3 & Hc3 & Hreg3 & Hlb3 & _).
    rewrite Hc2, Hc1 in Hc3. unfold fifo_enqueue, contents in Hc3.
    simpl in Hc3.
    destruct cells3 as [|[a1 c1] [|[a2 c2] [|[a3 c3] [|]]]]; try done.
    simpl in Hc3. injection Hc3 as Hm1 Hm2 Hm3.
    assert (registry (orch rt3) = registry (orch rt)) as Hreg
        by congruence.
    assert (load_balancer (orch rt3) = load_balancer (orch rt)) as Hlb
        by congruence.
    assert (to_service c1 = t1 ∧ to_service c2 = t2 ∧ to_service c3 = t3)
      as (Ht1 & Ht2 & Ht3).
    { unfold content in *. by simplify_eq. }
    destruct (dispatcher_delivers_head 2 rt3 a1 c1 _ Hrep3)
      as (p1 & rt4 & Hd1 & Hrep4 & Hst4 & Hroom4 & Hstable4).
    { by rewrite Hlb. }
    { by rewrite Hlb. }
    { rewrite Hreg, Ht1. apply Havail. by left. }
    destruct (dispatcher_delivers_head 1 rt4 a2 c2 _ Hrep4)
      as (p2 & rt5 & Hd2 & Hrep5 & Hst5 & Hroom5 & Hstable5).
    { by rewrite Hst4, Hlb. }
    { done. }
    { rewrite Hstable4, Hreg, Ht2. apply Havail. right. by left. }
    destruct (dispatcher_delivers_head 0 rt5 a3 c3 _ Hrep5)
      as (p3 & rt6 & Hd3 & Hrep6 & Hst6 & Hroom6 & Hstable6).
    { by rewrite Hst5, Hst4, Hlb. }
    { done. }
    { rewrite Hstable5, Hstable4, Hreg, Ht3. apply Havail. right. right. by left. }
    exists p1, p2, p3, c1, c2, c3, rt6. simpl.
    rewrite Hs1. simpl. rewrite Hs2. simpl. rewrite Hs3. simpl.
    rewrite Hd1. simpl. rewrite Hd2. simpl. rewrite Hd3. simpl.
    split_and!; [done | unfold content in *; congruence..].
Qed.

End QueueClaims.

Lemma initial_runtime_queue_rep :
  queue_rep (heap initial_runtime) (message_queue (orch initial_runtime)) [].
Proof. split_and!; simpl; [done | apply NoDup_nil_2 | done]. Qed.

Lemma message_queue_is_fifo_witness :
  ∃ replies rt',
    run first_free
      [SendMessage "cart" "billing" "m1"; SendMessage "cart" "stock" "m2";
       SendMessage "web" "billing" "m3"; Dispatch; Dispatch; Dispatch]
      initial_runtime
    = Done (replies, rt') ∧
    handled_in replies
    = [Some ("cart", "billing", "m1"); Some ("cart", "stock", "m2");
       Some ("web", "billing", "m3")] ∧
    queue_rep (heap rt') (message_queue (orch rt')) [].
Proof.
  apply (proj1 (proj2 (message_queue_is_fifo first_free first_free_fresh
                         first_free_not_null))).
  - exact initial_runtime_queue_rep.
  - intros _. simpl. unfold INT_MAX. lia.
Defined.

Section DiscardClaims.

Variable malloc : gmap Z Message → Z.
Hypothesis malloc_fresh : ∀ h, h !! malloc h = None.
Hypothesis malloc_not_null : ∀ h, malloc h ≠ NULL.

(** C10: with an allocator that answers with unused, non-null addresses,
    (1) [eghact_send_message] returns 0 for every sender, destination and
    payload, whether or not the destination was ever registered, puts the
    message at the end of the queue and leaves the registry alone; (2) a
    dispatcher turn whose head message has no healthy instance of its
    destination frees the cell of the message without calling
    [deliver_message], changes nothing else but the queue, which it leaves
    holding the messages behind; (3) the turn after that handles the next
    message. *)
Theorem undeliverable_message_is_discarded :
  (∀ (rt : Runtime) (cells : list (Z * Message)) (from to body : string),
     queue_rep (heap rt) (message_queue (orch rt)) cells →
     ∃ rt' cells',
       eghact_send_message malloc rt from to body = Done (0, rt') ∧
       queue_rep (heap rt') (message_queue (orch rt')) cells' ∧
       contents cells' = contents cells ++ [(from, to, body)] ∧
       registry (orch rt') = registry (orch rt)) ∧
  (∀ (rt : Runtime) (a : Z) (m : Message) (cells : list (Z * Message)),
     queue_rep (heap rt) (message_queue (orch rt)) ((a, m) :: cells) →
     (∀ n, n ∈ services (registry (orch rt)) →
           service_name n = to_service m → health_status n ≠ 1) →
     ∃ q',
       message_dispatcher_iteration rt =
         Done (Discarded m,
               mkRuntime
                 (mkEghactOrchestrator (registry (orch rt)) q'
                    (load_balancer (orch rt)))
                 (delete a (heap rt)) (issued rt)) ∧
       delete a (heap rt) !! a = None ∧
       queue_rep (delete a (heap rt)) q' cells ∧
       ∀ (a2 : Z) (m2 : Message) (rest : list (Z * Message)),
         cells = (a2, m2) :: rest →
         counter_room 1 (load_balancer (orch rt)) →
         ∃ d rt'',
           message_dispatcher_iteration
             (mkRuntime
                (mkEghactOrchestrator (registry (orch rt)) q'
                   (load_balancer (orch rt)))
                (delete a (heap rt)) (issued rt))
           = Done (d, rt'') ∧
           handled d = Some (content m2)).
Proof.
  split.
  - intros rt cells from to body Hrep.
    destruct (send_message_rep malloc malloc_fresh malloc_not_null rt cells
                from to body Hrep)
      as (rt' & cells' & Hsend & Hrep' & Hcont & Hreg & _).
    by exists rt', cells'.
  - intros rt a m cells Hrep Hnone.
    pose proof Hrep as Hrep0.
    apply dequeue_rep in Hrep as (q' & Hhead & Hnn & Hdeq & Hrep').
    exists q'. split_and!.
    + unfold message_dispatcher_iteration. rewrite Hhead.
      destruct (Z.eqb_spec a NULL) as [|_]; [done|].
      rewrite Hdeq. simpl. unfold eghact_discover_service. simpl.
      rewrite select_service_instance_empty
        by (by apply collect_instances_nil).
      done.
    + apply lookup_delete_eq.
    + done.
    + intros a2 m2 rest -> Hroom.
      destruct (dispatcher_handles_head 0
                  (mkRuntime
                     (mkEghactOrchestrator (registry (orch rt)) q'
                        (load_balancer (orch rt)))
                     (delete a (heap rt)) (issued rt))
                  a2 m2 rest Hrep' Hroom)
        as (d & rt'' & Hit & Hd & _).
      by exists d, rt''.
Qed.

End DiscardClaims.

Lemma undeliverable_message_is_discarded_witness :
  (∃ rt' cells',
     eghact_send_message first_free initial_runtime "cart" "nowhere" "hello"
     = Done (0, rt') ∧
     queue_rep (heap rt') (message_queue (orch rt')) cells' ∧
     contents cells' = contents [] ++ [("cart", "nowhere", "hello")] ∧
     registry (orch rt') = registry (orch initial_runtime)) ∧
  (∃ q',
     message_dispatcher_iteration nowhere_runtime =
       Done (Discarded (mkMessage "cart" "nowhere" "hello" 5 NULL),
             mkRuntime
               (mkEghactOrchestrator (registry (orch nowhere_runtime)) q'
                  (load_balancer (orch nowhere_runtime)))
               (delete 1 (heap nowhere_runtime)) (issued nowhere_runtime)) ∧
     delete 1 (heap nowhere_runtime) !! 1 = None ∧
     queue_rep (delete 1 (heap nowhere_runtime)) q' []).
Proof.
  destruct (undeliverable_message_is_discarded first_free first_free_fresh
              first_free_not_null) as [Hsend Hdrop].
  split.
  - apply Hsend. exact initial_runtime_queue_rep.
  - destruct (Hdrop nowhere_runtime 1
                (mkMessage "cart" "nowhere" "hello" 5 NULL) [])
      as (q' & Hit & Hfree & Hrep & _).
    + split_and!; simpl; [by split_and! | apply NoDup_singleton | done].
    + intros n Hn Hname. apply list_elem_of_singleton in Hn as ->.
      discriminate Hname.
    + by exists q'.
Defined.

Example send_to_unregistered_then_dispatch :
  run first_free
    [SendMessage "cart" "nowhere" "hello"; SendMessage "cart" "billing" "pay";
     Dispatch; Dispatch; Dispatch]
    (mkRuntime
       (mkEghactOrchestrator
          (mkServiceRegistry [mkServiceNode "0" "billing" "10.0.0.9" 9000 1 0] 1)
          (mkMessageQueue NULL NULL) (mkLoadBalancer LB_ROUND_ROBIN 0))
       ∅ {["0"]})
  = Done ([Accepted 0; Accepted 0;
           Dispatched (Discarded (mkMessage "cart" "nowhere" "hello" 5 2));
           Dispatched
             (Delivered 0 (mkMessage "cart" "billing" "pay" 5 NULL));
           Dispatched Waiting],
          mkRuntime
            (mkEghactOrchestrator
               (mkServiceRegistry
                  [mkServiceNode "0" "billing" "10.0.0.9" 9000 1 1] 1)
               (mkMessageQueue NULL NULL) (mkLoadBalancer LB_ROUND_ROBIN 1))
            ∅ {["0"]}).
Proof. vm_compute. reflexivity. Qed.

(** * Further properties *)

(** ** Series of calls through a circuit breaker *)

Section CircuitBreakerSeries.

Context {W : Type} (time : W → Z).

(** While the breaker is CLOSED and the failures stay under the threshold,
    every call runs its function, a success changes nothing, and a failure
    is counted. *)
Lemma circuit_closed_series (calls : list ((W → Z * W) * W)) :
  ∀ cb : CircuitBreaker,
    state cb = CLOSED →
    0 <= failure_count cb →
    failure_count cb + failures calls < failure_threshold cb →
    failure_threshold cb <= INT_MAX →
    ∃ last,
      circuit_breaker_calls time cb calls =
        (answer <$> calls,
         mkCircuitBreaker (failure_count cb + failures calls)
           (failure_threshold cb) (timeout_duration cb) last CLOSED) ∧
      0 <= failures calls.
Proof.
  induction calls as [|[func w] rest IH]; intros cb Hst Hlo Hhi Hmax.
  - exists (last_failure_time cb). simpl. rewrite Z.add_0_r. split; [|lia].
    destruct cb; simpl in *; by subst.
  - assert (circuit_gate (time w) cb = Some cb) as Hgate
        by (unfold circuit_gate; by rewrite Hst).
    assert (failures ((func, w) :: rest)
            = (if (func w).1 =? 0 then 0 else 1) + failures rest) as Hf
        by reflexivity.
    rewrite Hf in *. clear Hf.
    change (answer <$> (func, w) :: rest)
      with ((func w).1 :: (answer <$> rest)).
    cbn [circuit_breaker_calls].
    destruct (Z.eqb_spec (func w).1 0) as [Hok|Hfail].
    + rewrite (circuit_call_success time cb cb func w Hgate Hok), Hst.
      destruct (IH cb Hst Hlo) as (last & Hrest & Hnn); [lia | done |].
      rewrite Hrest. exists last. rewrite Hok. split; [|lia].
      by rewrite Z.add_0_l.
    + rewrite (circuit_call_failure time cb cb func w Hgate Hfail). simpl.
      assert (0 <= failures rest) as Hnn.
      { clear. induction rest as [|c l IHl]; simpl; [lia|].
        destruct (answer c =? 0); lia. }
      rewrite int_incr_no_overflow by (unfold INT_MIN; lia).
      destruct (Z.leb_spec (failure_threshold cb) (failure_count cb + 1));
        [lia|].
      rewrite Hst.
      destruct (IH (mkCircuitBreaker (failure_count cb + 1)
                      (failure_threshold cb) (timeout_duration cb)
                      (time (func w).2) CLOSED))
        as (last & Hrest & _); simpl; [done | lia | lia | done |].
      rewrite Hrest. simpl. exists last. split; [|lia].
      by rewrite Z.add_assoc.
Qed.

(** X1: a breaker created with a threshold between 1 and [INT_MAX] counts
    every failure, whether or not successes come in between: while fewer
    than [threshold] calls have failed it stays CLOSED, runs every wrapped
    function and hands on its answer; the call that brings the failures to
    [threshold] leaves it OPEN. *)
Theorem circuit_breaker_opens_at_threshold
    (threshold timeout : Z) (calls : list ((W → Z * W) * W))
    (func : W → Z * W) (w : W) :
  1 <= threshold <= INT_MAX →
  failures calls = threshold - 1 →
  (func w).1 ≠ 0 →
  ∃ last,
    circuit_breaker_calls time (create_circuit_breaker threshold timeout) calls
    = (answer <$> calls,
       mkCircuitBreaker (threshold - 1) threshold timeout last CLOSED) ∧
    circuit_breaker_calls time (create_circuit_breaker threshold timeout)
      (calls ++ [(func, w)])
    = (answer <$> (calls ++ [(func, w)]),
       mkCircuitBreaker threshold threshold timeout (time (func w).2) OPEN).
Proof.
  intros Hthr Hfail Hres.
  destruct (circuit_closed_series calls
              (create_circuit_breaker threshold timeout))
    as (last & Hcalls & _); simpl; [done | lia | lia | lia |].
  rewrite Z.add_0_l, Hfail in Hcalls. simpl in Hcalls.
  exists last. split; [done|].
  assert (∀ (l : list ((W → Z * W) * W)) cb rs cb',
            circuit_breaker_calls time cb l = (rs, cb') →
            circuit_breaker_calls time cb (l ++ [(func, w)])
            = (rs ++ [(circuit_breaker_call time cb' func w).1.1],
               (circuit_breaker_call time cb' func w).1.2)) as Happ.
  { induction l as [|[f0 w0] l IHl]; intros cb rs cb'; simpl.
    - intros [= <- <-]. by destruct (circuit_breaker_call time cb func w) as [[??]?].
    - destruct (circuit_breaker_call time cb f0 w0) as [[r0 cb0] w0'].
      destruct (circuit_breaker_calls time cb0 l) as [rs0 cb1] eqn:Hl.
      intros [= <- <-]. by rewrite (IHl cb0 rs0 cb1 Hl). }
  rewrite (Happ _ _ _ _ Hcalls).
  rewrite (circuit_call_failure time
             (mkCircuitBreaker (threshold - 1) threshold timeout last CLOSED)
             (mkCircuitBreaker (threshold - 1) threshold timeout last CLOSED)
             func w eq_refl Hres).
  simpl. rewrite int_incr_no_overflow by (unfold INT_MIN; lia).
  replace (threshold - 1 + 1) with threshold by lia.
  rewrite Z.leb_refl, fmap_app. done.
Qed.

(** What a series of at most [budget] further calls keeps true of a
    breaker. *)
Lemma circuit_series_never_half_open (calls : list ((W → Z * W) * W)) :
  ∀ cb : CircuitBreaker,
    state cb ≠ HALF_OPEN →
    (state cb = OPEN → failure_threshold cb <= failure_count cb) →
    0 <= failure_count cb →
    failure_count cb + Z.of_nat (length calls) <= INT_MAX →
    state (circuit_breaker_calls time cb calls).2 ≠ HALF_OPEN.
Proof.
  induction calls as [|[func w] rest IH]; intros cb Hst Hopen Hlo Hhi.
  - done.
  - simpl in Hhi. simpl.
    destruct (circuit_breaker_call time cb func w) as [[r cb1] w1] eqn:Hcall.
    destruct (circuit_breaker_calls time cb1 rest) as [rs cb2] eqn:Hrest.
    simpl. change cb2 with (rs, cb2).2. rewrite <-Hrest.
    assert (state cb1 ≠ HALF_OPEN ∧
            (state cb1 = OPEN → failure_threshold cb1 <= failure_count cb1) ∧
            0 <= failure_count cb1 ∧
            failure_count cb1 <= failure_count cb + 1) as (H1 & H2 & H3 & H4).
    { destruct (circuit_gate (time w) cb) as [cbg|] eqn:Hgate.
      - assert (failure_count cbg = failure_count cb ∧
                failure_threshold cbg = failure_threshold cb ∧
                (state cbg = state cb ∨
                 state cbg = HALF_OPEN ∧ state cb = OPEN)) as (Hc & Ht & Hs).
        { unfold circuit_gate in Hgate. destruct (state cb) eqn:Hs.
          - injection Hgate as <-. by auto.
          - destruct (_ <? _); [|done]. injection Hgate as <-. simpl.
            by auto.
          - done. }
        destruct (Z.eq_dec (func w).1 0) as [Hok|Hfail].
        + rewrite (circuit_call_success time cb cbg func w Hgate Hok) in Hcall.
          injection Hcall as _ <- _.
          destruct (state cbg) eqn:Hsg; simpl.
          * rewrite Hsg, Hc. split_and!; [done | done | done | lia].
          * destruct Hs as [Hs|[Hs _]]; [|done].
            rewrite Hsg, Hc, Ht. split_and!; [done | | done | lia].
            intros _. apply Hopen. congruence.
          * split_and!; [done | done | lia | lia].
        + rewrite (circuit_call_failure time cb cbg func w Hgate Hfail) in Hcall.
          injection Hcall as _ <- _. simpl.
          rewrite int_incr_no_overflow by (unfold INT_MIN; lia).
          rewrite Hc, Ht.
          destruct (Z.leb_spec (failure_threshold cb) (failure_count cb + 1))
            as [Hge|Hlt].
          * split_and!; [done | done | lia | lia].
          * destruct Hs as [Hs|[_ Hs]].
            -- rewrite Hs. split_and!; [done | | lia | lia].
               intros Ho. specialize (Hopen Ho). lia.
            -- specialize (Hopen Hs). lia.
      - unfold circuit_breaker_call in Hcall. rewrite Hgate in Hcall.
        injection Hcall as _ <- _. split_and!; [done | done | done | lia]. }
    apply IH; [done | done | done | lia].
Qed.

(** X2: a breaker created with any threshold and timeout is never left
    HALF_OPEN: after every series of at most [INT_MAX] calls, whatever the
    wrapped functions answer and whatever the clock reads, its state is
    CLOSED or OPEN. *)
Theorem circuit_breaker_never_left_half_open
    (threshold timeout : Z) (calls : list ((W → Z * W) * W)) :
  Z.of_nat (length calls) <= INT_MAX →
  state (circuit_breaker_calls time
           (create_circuit_breaker threshold timeout) calls).2 ≠ HALF_OPEN.
Proof.
  intros Hlen. apply circuit_series_never_half_open; simpl; [done | done | lia | lia].
Qed.

End CircuitBreakerSeries.

Lemma circuit_breaker_opens_at_threshold_witness :
  ∃ last,
    circuit_breaker_calls fst (create_circuit_breaker 2 60)
      [(failing_call, (100, 0%nat)); (passing_call, (115, 1%nat))]
    = (answer <$> [(failing_call, (100, 0%nat)); (passing_call, (115, 1%nat))],
       mkCircuitBreaker (2 - 1) 2 60 last CLOSED) ∧
    circuit_breaker_calls fst (create_circuit_breaker 2 60)
      ([(failing_call, (100, 0%nat)); (passing_call, (115, 1%nat))]
       ++ [(failing_call, (120, 2%nat))])
    = (answer <$> ([(failing_call, (100, 0%nat)); (passing_call, (115, 1%nat))]
                   ++ [(failing_call, (120, 2%nat))]),
       mkCircuitBreaker 2 2 60 (fst (failing_call (120, 2%nat)).2) OPEN).
Proof.
  apply (circuit_breaker_opens_at_threshold fst 2 60
           [(failing_call, (100, 0%nat)); (passing_call, (115, 1%nat))]
           failing_call (120, 2%nat)).
  - unfold INT_MAX. lia.
  - reflexivity.
  - simpl. lia.
Defined.

Lemma circuit_breaker_never_left_half_open_witness :
  state (circuit_breaker_calls fst (create_circuit_breaker 1 60)
           [(failing_call, (100, 0%nat)); (failing_call, (200, 1%nat));
            (passing_call, (300, 2%nat))]).2 ≠ HALF_OPEN.
Proof.
  apply (circuit_breaker_never_left_half_open fst 1 60).
  simpl. unfold INT_MAX. lia.
Defined.

(** ** How the calls change the registry *)

(** Everything a selection does to the balancer and the registry. *)
Lemma select_service_instance_frame (lb lb' : LoadBalancer) (name : string)
    (reg reg' : ServiceRegistry) (selected : NodePtr) :
  select_service_instance lb name reg = Done (selected, lb', reg') →
  num_services reg' = num_services reg ∧
  strategy lb' = strategy lb ∧
  match selected with
  | None => lb' = lb ∧ reg' = reg
  | Some p =>
      (∃ n, services reg !! p = Some n ∧
            service_name n = name ∧ health_status n = 1 ∧
            services reg' = <[p := set_load n (int_incr (load n))]> (services reg)) ∧
      (strategy lb = LB_ROUND_ROBIN ∨ strategy lb = LB_LEAST_CONNECTIONS) ∧
      current_index lb' =
        match strategy lb with
        | LB_ROUND_ROBIN => int_incr (current_index lb)
        | _ => current_index lb
        end
  end.
Proof.
  intros Hsel. destruct selected as [p|].
  - pose proof Hsel as Hsome.
    apply select_service_instance_Some in Hsome as (Hin & n & Hn & ->).
    apply collect_instances_valid in Hin as (n1 & Hn1 & Hname & Hh).
    assert (n1 = n) as -> by congruence. simpl.
    assert (strategy lb' = strategy lb ∧
            (strategy lb = LB_ROUND_ROBIN ∨ strategy lb = LB_LEAST_CONNECTIONS) ∧
            current_index lb' =
              match strategy lb with
              | LB_ROUND_ROBIN => int_incr (current_index lb)
              | _ => current_index lb
              end) as (Hs & Hk & Hc).
    { revert Hsel. unfold select_service_instance.
      destruct (0 <? _); [|done].
      destruct (strategy lb) eqn:Hstrat.
      - destruct (array_get _ _); [|done]. simpl.
        destruct (node_at _ _); [|done]. simpl. intros [= _ <- _]. simpl.
        by auto.
      - destruct (array_get _ _); [|done]. simpl.
        destruct (least_connections_loop _ _ _); [|done]. simpl.
        destruct (node_at _ _); [|done]. simpl. intros [= _ <- _].
        by auto.
      - done.
      - done. }
    split_and!; [done | done | by exists n | done | done].
  - apply select_service_instance_None in Hsel as [-> ->]. done.
Qed.

(** What a call does to the registry: nothing; or it puts a new healthy
    node with load 0 at the head; or it is what a selection does; or it is
    what a turn of the health checker does. *)
Lemma step_registry (malloc : gmap Z Message → Z) (c : Call) (rt rt' : Runtime)
    (reply : Reply) :
  step malloc c rt = Done (reply, rt') →
  registry (orch rt') = registry (orch rt) ∨
  (∃ id name hst prt,
     registry (orch rt') =
       mkServiceRegistry
         (mkServiceNode id name hst prt 1 0 :: services (registry (orch rt)))
         (int_incr (num_services (registry (orch rt))))) ∨
  (∃ name selected lb',
     select_service_instance (load_balancer (orch rt)) name (registry (orch rt))
     = Done (selected, lb', registry (orch rt'))) ∨
  (∃ probe,
     registry (orch rt') = (health_check_iteration probe (registry (orch rt))).1).
Proof.
  destruct c as [name hst prt|name|from to body|probe|]; simpl.
  - intros [= _ <-]. right. left. simpl. by eauto.
  - unfold eghact_discover_service.
    destruct (select_service_instance _ _ _) as [[[sel lb'] reg']|] eqn:Hsel;
      [|done].
    simpl. intros [= _ <-]. right. right. left. simpl. by eauto.
  - unfold eghact_send_message. destruct (malloc (heap rt) =? NULL); [done|].
    destruct (enqueue _ _ _) as [[h' q']|]; [|done].
    simpl. intros [= _ <-]. by left.
  - destruct (health_check_iteration probe (registry (orch rt)))
      as [reg' steps] eqn:Hh.
    intros [= _ <-]. right. right. right. exists probe. by rewrite Hh.
  - unfold message_dispatcher_iteration.
    destruct (head _ =? NULL); [intros [= _ <-]; by left|].
    destruct (dequeue _ _) as [[[msg m] q']|]; [|done]. simpl.
    unfold eghact_discover_service. simpl.
    destruct (select_service_instance _ _ _) as [[[sel lb'] reg']|] eqn:Hsel;
      [|done].
    simpl. intros [= _ <-]. right. right. left. simpl. by eauto.
Qed.

(** What every call keeps, a sequence of calls keeps. *)
Lemma run_invariant (malloc : gmap Z Message → Z) (P : Runtime → Prop) :
  (∀ c rt reply rt', step malloc c rt = Done (reply, rt') → P rt → P rt') →
  ∀ calls rt replies rt',
    run malloc calls rt = Done (replies, rt') → P rt → P rt'.
Proof.
  intros Hstep calls. induction calls as [|c rest IH];
    intros rt replies rt'; simpl.
  - by intros [= _ <-].
  - destruct (step malloc c rt) as [[reply rt1]|] eqn:Hs; [|done]. simpl.
    destruct (run malloc rest rt1) as [[replies' rt2]|] eqn:Hr; [|done].
    simpl. intros [= _ <-] HP. eapply IH; [done|]. by eapply Hstep.
Qed.

Lemma wrap_int_incr (x : Z) : int_incr (wrap_int x) = wrap_int (x + 1).
Proof.
  unfold int_incr, wrap_int.
  replace ((x - INT_MIN) `mod` 2 ^ 32 + INT_MIN + 1 - INT_MIN)
    with ((x - INT_MIN) `mod` 2 ^ 32 + 1) by lia.
  rewrite Zplus_mod_idemp_l.
  by replace (x - INT_MIN + 1) with (x + 1 - INT_MIN) by lia.
Qed.

Lemma health_check_iteration_registry (probe : ServiceNode → ProbeResult)
    (reg : ServiceRegistry) :
  (health_check_iteration probe reg).1 =
    mkServiceRegistry
      ((λ n, set_health n (probed_health (probe n))) <$> services reg)
      (num_services reg).
Proof.
  unfold health_check_iteration. by rewrite health_check_nodes_spec.
Qed.

(** X3: [num_services] keeps count of the nodes.  From the initial runtime,
    after any sequence of calls, it is the number of nodes in the registry
    list, as a 32-bit [int]. *)
Theorem num_services_counts_nodes
    (malloc : gmap Z Message → Z) (calls : list Call) (replies : list Reply)
    (rt : Runtime) :
  run malloc calls initial_runtime = Done (replies, rt) →
  num_services (registry (orch rt))
  = wrap_int (Z.of_nat (length (services (registry (orch rt))))).
Proof.
  intros Hrun.
  apply (run_invariant malloc
           (λ rt, num_services (registry (orch rt))
                  = wrap_int (Z.of_nat (length (services (registry (orch rt)))))))
    with (calls := calls) (rt := initial_runtime) (replies := replies);
    [|done|done].
  clear. intros c rt reply rt' Hstep Hinv.
  apply step_registry in Hstep
    as [->|[(id & name & hst & prt & ->)|[(name & sel & lb' & Hsel)|[probe ->]]]].
  - done.
  - simpl. rewrite Hinv, wrap_int_incr. f_equal. lia.
  - pose proof (select_service_instance_frame _ _ _ _ _ _ Hsel) as (-> & _ & _).
    apply select_service_instance_ids in Hsel as [_ ->]. done.
  - rewrite health_check_iteration_registry. simpl. by rewrite length_fmap.
Qed.

Lemma num_services_counts_nodes_witness :
  num_services (registry (orch two_api_runtime))
  = wrap_int (Z.of_nat (length (services (registry (orch two_api_runtime))))).
Proof.
  apply (num_services_counts_nodes first_free
           [Register "api" "10.0.0.1" 80; Register "api" "10.0.0.2" 80]
           [Registered 0; Registered 0]).
  reflexivity.
Defined.

Lemma probed_health_binary (r : ProbeResult) :
  probed_health r = 0 ∨ probed_health r = 1.
Proof. destruct r as [| |s]; simpl; [by left..|]. destruct (String.eqb s "OK"); auto. Qed.

(** X4: the health status of a node is only ever 0 or 1.  From the initial
    runtime, after any sequence of calls, every node of the registry has
    [health_status] 0 or 1, so "not healthy" and "health status 0" are the
    same thing. *)
Theorem health_status_is_binary
    (malloc : gmap Z Message → Z) (calls : list Call) (replies : list Reply)
    (rt : Runtime) (n : ServiceNode) :
  run malloc calls initial_runtime = Done (replies, rt) →
  n ∈ services (registry (orch rt)) →
  health_status n = 0 ∨ health_status n = 1.
Proof.
  intros Hrun. revert n.
  apply (run_invariant malloc
           (λ rt, ∀ n, n ∈ services (registry (orch rt)) →
                       health_status n = 0 ∨ health_status n = 1))
    with (calls := calls) (rt := initial_runtime) (replies := replies);
    [|done|].
  - clear. intros c rt reply rt' Hstep Hinv n.
    apply step_registry in Hstep
      as [->|[(id & name & hst & prt & ->)|[(name & sel & lb' & Hsel)|[probe ->]]]].
    + apply Hinv.
    + simpl. intros Hn. apply elem_of_cons in Hn as [->|Hn]; [by right|].
      by apply Hinv.
    + apply select_service_instance_frame in Hsel as (_ & _ & Hsel).
      destruct sel as [p|].
      * destruct Hsel as ((m & Hm & _ & _ & ->) & _). intros Hn.
        apply list_elem_of_lookup in Hn as [i Hi].
        destruct (decide (i = p)) as [->|Hne].
        -- rewrite list_lookup_insert_eq in Hi by (by eapply lookup_lt_Some).
           injection Hi as <-. simpl. apply Hinv.
           by eapply list_elem_of_lookup_2.
        -- rewrite list_lookup_insert_ne in Hi by done. apply Hinv.
           by eapply list_elem_of_lookup_2.
      * destruct Hsel as [_ ->]. apply Hinv.
    + rewrite health_check_iteration_registry. simpl. intros Hn.
      apply list_elem_of_fmap in Hn as (m & -> & _). simpl.
      apply probed_health_binary.
  - simpl. intros n Hn. by apply elem_of_nil in Hn.
Qed.

Lemma health_status_is_binary_witness :
  health_status (mkServiceNode "1" "api" "10.0.0.2" 80 1 0) = 0
  ∨ health_status (mkServiceNode "1" "api" "10.0.0.2" 80 1 0) = 1.
Proof.
  apply (health_status_is_binary first_free
           [Register "api" "10.0.0.1" 80; Register "api" "10.0.0.2" 80]
           [Registered 0; Registered 0] two_api_runtime).
  - reflexivity.
  - vm_compute. left.
Defined.



(** X6: what a discovery changes.  One that returns the null pointer
    leaves the whole orchestrator as it was, the round-robin counter
    included.  One that returns a node has counted one connection on that
    node (its load plus one, as an [int]) and, under round robin, moved the
    counter by one; every other node, the number of services, the strategy
    and the message queue are as they were. *)
Theorem discover_side_effects
    (o o' : EghactOrchestrator) (name : string) (selected : NodePtr) :
  eghact_discover_service o name = Done (selected, o') →
  match selected with
  | None => o' = o
  | Some p =>
      ∃ n, services (registry o) !! p = Some n ∧
           o' = mkEghactOrchestrator
                  (mkServiceRegistry
                     (<[p := set_load n (int_incr (load n))]>
                        (services (registry o)))
                     (num_services (registry o)))
                  (message_queue o)
                  (mkLoadBalancer (strategy (load_balancer o))
                     match strategy (load_balancer o) with
                     | LB_ROUND_ROBIN => int_incr (current_index (load_balancer o))
                     | _ => current_index (load_balancer o)
                     end)
  end.
Proof.
  unfold eghact_discover_service.
  destruct (select_service_instance _ _ _) as [[[sel lb'] reg']|] eqn:Hsel;
    [|done].
  simpl. intros [= <- <-].
  apply select_service_instance_frame in Hsel as (Hnum & Hstrat & Hsel).
  destruct sel as [p|].
  - destruct Hsel as ((n & Hn & _ & _ & Hserv) & _ & Hidx).
    exists n. split; [done|]. destruct reg', lb'. simpl in *.
    by subst.
  - destruct Hsel as [-> ->]. by destruct o.
Qed.

Lemma discover_side_effects_witness :
  ∃ n, services (registry payments_orchestrator) !! 0%nat = Some n ∧
       mkEghactOrchestrator
         (mkServiceRegistry
            [mkServiceNode "1" "payments" "10.0.0.2" 8080 1 1;
             mkServiceNode "0" "payments" "10.0.0.1" 8080 0 0]
            2)
         (mkMessageQueue NULL NULL)
         (mkLoadBalancer LB_ROUND_ROBIN 1)
       = mkEghactOrchestrator
           (mkServiceRegistry
              (<[0%nat := set_load n (int_incr (load n))]>
                 (services (registry payments_orchestrator)))
              (num_services (registry payments_orchestrator)))
           (message_queue payments_orchestrator)
           (mkLoadBalancer (strategy (load_balancer payments_orchestrator))
              match strategy (load_balancer payments_orchestrator) with
              | LB_ROUND_ROBIN =>
                  int_incr (current_index (load_balancer payments_orchestrator))
              | _ => current_index (load_balancer payments_orchestrator)
              end).
Proof.
  apply (discover_side_effects payments_orchestrator _ "payments" (Some 0%nat)).
  vm_compute. reflexivity.
Defined.

(** ** Loads *)

(** A call either makes no selection, and then hands out nothing and
    leaves the balancer alone, or it is one selection. *)
Lemma step_selection (malloc : gmap Z Message → Z) (c : Call)
    (rt rt' : Runtime) (reply : Reply) :
  step malloc c rt = Done (reply, rt') →
  (handed_out [reply] = 0 ∧
   load_balancer (orch rt') = load_balancer (orch rt) ∧
   (registry (orch rt') = registry (orch rt) ∨
    (∃ id name hst prt,
       registry (orch rt') =
         mkServiceRegistry
           (mkServiceNode id name hst prt 1 0 :: services (registry (orch rt)))
           (int_incr (num_services (registry (orch rt))))) ∨
    (∃ probe,
       registry (orch rt')
       = (health_check_iteration probe (registry (orch rt))).1))) ∨
  (∃ name selected,
     select_service_instance (load_balancer (orch rt)) name (registry (orch rt))
     = Done (selected, load_balancer (orch rt'), registry (orch rt')) ∧
     handed_out [reply] = match selected with Some _ => 1 | None => 0 end).
Proof.
  destruct c as [name hst prt|name|from to body|probe|]; simpl.
  - intros [= <- <-]. left. simpl. split_and!; [done | done |].
    right. left. by eauto.
  - unfold eghact_discover_service.
    destruct (select_service_instance _ _ _) as [[[sel lb'] reg']|] eqn:Hsel;
      [|done].
    simpl. intros [= <- <-]. right. exists name, sel. simpl.
    split; [done | by destruct sel].
  - unfold eghact_send_message. destruct (malloc (heap rt) =? NULL); [done|].
    destruct (enqueue _ _ _) as [[h' q']|]; [|done].
    simpl. intros [= <- <-]. left. simpl. by auto.
  - destruct (health_check_iteration probe (registry (orch rt)))
      as [reg' steps] eqn:Hh.
    intros [= <- <-]. left. simpl. split_and!; [done | done |].
    right. right. exists probe. by rewrite Hh.
  - unfold message_dispatcher_iteration.
    destruct (head _ =? NULL); [intros [= <- <-]; left; by auto|].
    destruct (dequeue _ _) as [[[msg m] q']|]; [|done]. simpl.
    unfold eghact_discover_service. simpl.
    destruct (select_service_instance _ _ _) as [[[sel lb'] reg']|] eqn:Hsel;
      [|done].
    simpl. intros [= <- <-]. right. exists (to_service m), sel. simpl.
    split; [done | by destruct sel].
Qed.

Lemma handed_out_cons (reply : Reply) (replies : list Reply) :
  handed_out (reply :: replies) = handed_out [reply] + handed_out replies.
Proof.
  destruct reply as [r|[p|]|r|s|[|p m|m]]; simpl; lia.
Qed.

Lemma total_load_insert (nodes : list ServiceNode) (p : nat)
    (n m : ServiceNode) :
  nodes !! p = Some n →
  total_load (<[p := m]> nodes) = total_load nodes - load n + load m.
Proof.
  revert p. induction nodes as [|n0 rest IH]; intros p Hp; [done|].
  destruct p as [|p]; simpl in *.
  - injection Hp as ->. lia.
  - rewrite (IH p Hp). lia.
Qed.

Lemma total_load_bounds (nodes : list ServiceNode) (p : nat) (n : ServiceNode) :
  (∀ m, m ∈ nodes → 0 <= load m) →
  nodes !! p = Some n →
  0 <= load n <= total_load nodes.
Proof.
  revert p. induction nodes as [|n0 rest IH]; intros p Hnn Hp; [done|].
  assert (0 <= load n0) by (apply Hnn; by left).
  assert (0 <= total_load rest).
  { clear -Hnn. induction rest as [|a l IHl]; simpl; [lia|].
    assert (0 <= load a) by (apply Hnn; right; by left).
    assert (0 <= total_load l); [|lia].
    apply IHl. intros m Hm. apply Hnn.
    apply elem_of_cons in Hm as [->|Hm]; [by left | right; right; done]. }
  destruct p as [|p]; simpl in *.
  - injection Hp as ->. lia.
  - destruct (IH p) as [? ?]; [intros m Hm; apply Hnn; by right | done | lia].
Qed.

Lemma total_load_set_health (f : ServiceNode → Z) (nodes : list ServiceNode) :
  total_load ((λ n, set_health n (f n)) <$> nodes) = total_load nodes.
Proof.
  induction nodes as [|n rest IH]; simpl; [done|]. f_equal. apply IH.
Qed.

(** One call, seen from the loads. *)
Lemma step_load_accounting (malloc : gmap Z Message → Z) (c : Call)
    (rt rt' : Runtime) (reply : Reply) :
  step malloc c rt = Done (reply, rt') →
  (∀ n, n ∈ services (registry (orch rt)) → 0 <= load n) →
  total_load (services (registry (orch rt))) < INT_MAX →
  total_load (services (registry (orch rt')))
  = total_load (services (registry (orch rt))) + handed_out [reply] ∧
  (∀ n, n ∈ services (registry (orch rt')) → 0 <= load n).
Proof.
  intros Hstep Hnn Hroom.
  apply step_selection in Hstep
    as [(-> & _ & [->|[(id & name & hst & prt & ->)|[probe ->]]])
       |(name & sel & Hsel & ->)].
  - split; [lia | done].
  - simpl. split; [lia|]. intros n Hn.
    apply elem_of_cons in Hn as [->|Hn]; [simpl; lia | by apply Hnn].
  - rewrite health_check_iteration_registry. simpl.
    rewrite total_load_set_health. split; [lia|].
    intros n Hn. apply list_elem_of_fmap in Hn as (m & -> & Hm). simpl.
    by apply Hnn.
  - apply select_service_instance_frame in Hsel as (_ & _ & Hsel).
    destruct sel as [p|].
    + destruct Hsel as ((n & Hn & _ & _ & ->) & _).
      pose proof (total_load_bounds _ _ _ Hnn Hn) as Hb.
      rewrite int_incr_no_overflow by (unfold INT_MIN; lia).
      rewrite (total_load_insert _ _ n) by done. simpl. split; [lia|].
      intros m Hm. apply list_elem_of_lookup in Hm as [i Hi].
      destruct (decide (i = p)) as [->|Hne].
      * rewrite list_lookup_insert_eq in Hi by (by eapply lookup_lt_Some).
        injection Hi as <-. simpl. lia.
      * rewrite list_lookup_insert_ne in Hi by done. apply Hnn.
        by eapply list_elem_of_lookup_2.
    + destruct Hsel as [_ ->]. split; [lia | done].
Qed.

Lemma handed_out_bounds (reply : Reply) : 0 <= handed_out [reply] <= 1.
Proof. destruct reply as [r|[p|]|r|s|[|p m|m]]; simpl; lia. Qed.

(** X7: no call ever gives a connection back.  Over any sequence of
    calls, while the loads stay in the range of [int], the loads of the
    registry added up grow by exactly one for every node a discovery
    returned and every message the dispatcher delivered, and by nothing
    else; no load goes below 0. *)
Theorem load_is_never_released
    (malloc : gmap Z Message → Z) (calls : list Call) :
  ∀ (rt rt' : Runtime) (replies : list Reply),
    run malloc calls rt = Done (replies, rt') →
    (∀ n, n ∈ services (registry (orch rt)) → 0 <= load n) →
    total_load (services (registry (orch rt))) + Z.of_nat (length calls)
    <= INT_MAX →
    total_load (services (registry (orch rt')))
    = total_load (services (registry (orch rt))) + handed_out replies ∧
    (∀ n, n ∈ services (registry (orch rt')) → 0 <= load n).
Proof.
  induction calls as [|c rest IH]; intros rt rt' replies; simpl.
  - intros [= <- <-] Hnn _. simpl. split; [lia | done].
  - destruct (step malloc c rt) as [[reply rt1]|] eqn:Hstep; [|done]. simpl.
    destruct (run malloc rest rt1) as [[replies' rt2]|] eqn:Hrun; [|done].
    simpl. intros [= <- <-] Hnn Hroom.
    destruct (step_load_accounting malloc c rt rt1 reply Hstep Hnn)
      as [Htot Hnn1]; [lia|].
    pose proof (handed_out_bounds reply) as Hb.
    destruct (IH rt1 rt2 replies' Hrun Hnn1) as [Htot2 Hnn2]; [lia|].
    split; [|done]. rewrite handed_out_cons. lia.
Qed.

Lemma load_is_never_released_witness :
  ∃ (replies : list Reply) (rt' : Runtime),
    run first_free
      [Discover "api"; SendMessage "web" "api" "ping"; Dispatch;
       HealthCheck (λ _, ConnectFailed); Discover "api"]
      two_api_runtime
    = Done (replies, rt') ∧
    total_load (services (registry (orch rt')))
    = total_load (services (registry (orch two_api_runtime)))
      + handed_out replies ∧
    (∀ n, n ∈ services (registry (orch rt')) → 0 <= load n).
Proof.
  destruct (run first_free
              [Discover "api"; SendMessage "web" "api" "ping"; Dispatch;
               HealthCheck (λ _, ConnectFailed); Discover "api"]
              two_api_runtime) as [[replies rt']|] eqn:Hrun;
    [|vm_compute in Hrun; discriminate Hrun].
  exists replies, rt'. split; [reflexivity|].
  apply (load_is_never_released first_free _ two_api_runtime rt' replies Hrun).
  - intros n Hn. vm_compute in Hn.
    apply elem_of_cons in Hn as [->|Hn]; [simpl; lia|].
    apply list_elem_of_singleton in Hn as ->. simpl. lia.
  - vm_compute. discriminate.
Defined.

(** X10: the weighted and the IP-hash strategies select nothing.  With
    either of them set, over any sequence of calls no discovery returns a
    node and the dispatcher delivers no message, whatever is registered and
    healthy; the strategy stays what it was. *)
Theorem unimplemented_strategies_hand_out_nothing
    (malloc : gmap Z Message → Z) (calls : list Call) :
  ∀ (rt rt' : Runtime) (replies : list Reply),
    strategy (load_balancer (orch rt)) = LB_WEIGHTED
    ∨ strategy (load_balancer (orch rt)) = LB_IP_HASH →
    run malloc calls rt = Done (replies, rt') →
    handed_out replies = 0 ∧
    load_balancer (orch rt') = load_balancer (orch rt) ∧
    total_load (services (registry (orch rt')))
    = total_load (services (registry (orch rt))).
Proof.
  induction calls as [|c rest IH]; intros rt rt' replies Hstrat; simpl.
  - by intros [= <- <-].
  - destruct (step malloc c rt) as [[reply rt1]|] eqn:Hstep; [|done]. simpl.
    destruct (run malloc rest rt1) as [[replies' rt2]|] eqn:Hrun; [|done].
    simpl. intros [= <- <-].
    assert (handed_out [reply] = 0 ∧
            load_balancer (orch rt1) = load_balancer (orch rt) ∧
            total_load (services (registry (orch rt1)))
            = total_load (services (registry (orch rt)))) as (Hh & Hlb & Htot).
    { apply step_selection in Hstep
        as [(Hh & Hlb & [->|[(id & name & hst & prt & ->)|[probe ->]]])
           |(name & sel & Hsel & ->)].
      - done.
      - split_and!; [done | done | simpl; lia].
      - rewrite health_check_iteration_registry. simpl.
        by rewrite total_load_set_health.
      - apply select_service_instance_frame in Hsel as (_ & _ & Hsel).
        destruct sel as [p|].
        + destruct Hsel as (_ & [Hs|Hs] & _); destruct Hstrat; congruence.
        + destruct Hsel as [-> ->]. done. }
    destruct (IH rt1 rt2 replies' ltac:(by rewrite Hlb) Hrun)
      as (Hh2 & Hlb2 & Htot2).
    rewrite handed_out_cons. split_and!; [lia | congruence | congruence].
Qed.

Lemma unimplemented_strategies_hand_out_nothing_witness :
  ∃ (replies : list Reply) (rt' : Runtime),
    run first_free
      [Discover "api"; SendMessage "web" "api" "ping"; Dispatch; Discover "api"]
      weighted_runtime
    = Done (replies, rt') ∧
    handed_out replies = 0 ∧
    load_balancer (orch rt') = load_balancer (orch weighted_runtime) ∧
    total_load (services (registry (orch rt')))
    = total_load (services (registry (orch weighted_runtime))).
Proof.
  destruct (run first_free
              [Discover "api"; SendMessage "web" "api" "ping"; Dispatch;
               Discover "api"]
              weighted_runtime) as [[replies rt']|] eqn:Hrun;
    [|vm_compute in Hrun; discriminate Hrun].
  exists replies, rt'. split; [reflexivity|].
  exact (unimplemented_strategies_hand_out_nothing first_free _
           weighted_runtime rt' replies (or_introl eq_refl) Hrun).
Defined.

(** ** One counter for all services *)

(** Two round-robin selections in a row, for two services. *)
Lemma select_round_robin_pair (lb : LoadBalancer) (a b : string)
    (reg : ServiceRegistry) :
  strategy lb = LB_ROUND_ROBIN →
  collect_instances a 0 (services reg) ≠ [] →
  collect_instances b 0 (services reg) ≠ [] →
  0 <= current_index lb →
  current_index lb + 2 <= INT_MAX →
  ∃ pa pb reg1 reg2,
    collect_instances a 0 (services reg)
      !! Z.to_nat (current_index lb
                   `mod` Z.of_nat (length (collect_instances a 0 (services reg))))
    = Some pa ∧
    collect_instances b 0 (services reg)
      !! Z.to_nat ((current_index lb + 1)
                   `mod` Z.of_nat (length (collect_instances b 0 (services reg))))
    = Some pb ∧
    select_service_instance lb a reg
    = Done (Some pa, mkLoadBalancer LB_ROUND_ROBIN (current_index lb + 1), reg1) ∧
    select_service_instance
      (mkLoadBalancer LB_ROUND_ROBIN (current_index lb + 1)) b reg1
    = Done (Some pb, mkLoadBalancer LB_ROUND_ROBIN (current_index lb + 2), reg2) ∧
    ∀ other, collect_instances other 0 (services reg2)
             = collect_instances other 0 (services reg).
Proof.
  intros Hstrat Ha Hb Hlo Hhi.
  destruct (select_round_robin_step lb a reg Hstrat Ha)
    as (pa & na & Hpa & Hna & Hsel1); [lia|].
  set (reg1 := mkServiceRegistry
                 (<[pa := set_load na (int_incr (load na))]> (services reg))
                 (num_services reg)) in *.
  assert (∀ other, collect_instances other 0 (services reg1)
                   = collect_instances other 0 (services reg)) as Hstable1.
  { intros other. simpl. by apply collect_instances_set_load. }
  destruct (select_round_robin_step
              (mkLoadBalancer LB_ROUND_ROBIN (current_index lb + 1)) b reg1)
    as (pb & nb & Hpb & Hnb & Hsel2); [done | by rewrite Hstable1 | simpl; lia |].
  simpl current_index in Hsel2, Hpb. rewrite Hstable1 in Hpb.
  eexists pa, pb, reg1, _.
  split_and!; [done | done | done | |].
  - replace (current_index lb + 1 + 1) with (current_index lb + 2)
      in Hsel2 by lia.
    exact Hsel2.
  - intros other. simpl. rewrite collect_instances_set_load by done.
    apply Hstable1.
Qed.

(** Alternating round-robin selections walk both arrays with one counter:
    the service asked first sees the counter at every second value. *)
Lemma select_alternately_round_robin (a b : string) (pool_a pool_b : list nat)
    (rounds : nat) :
  ∀ (lb : LoadBalancer) (reg : ServiceRegistry),
    strategy lb = LB_ROUND_ROBIN →
    collect_instances a 0 (services reg) = pool_a →
    collect_instances b 0 (services reg) = pool_b →
    pool_a ≠ [] → pool_b ≠ [] →
    0 <= current_index lb →
    current_index lb + 2 * Z.of_nat rounds <= INT_MAX →
    ∃ picks lb' reg',
      select_alternately rounds lb a b reg = Done (picks, lb', reg') ∧
      length picks = rounds ∧
      ∀ (j : nat) pick,
        picks !! j = Some pick →
        ∃ pa pb,
          pick = (Some pa, Some pb) ∧
          pool_a !! Z.to_nat ((current_index lb + 2 * Z.of_nat j)
                              `mod` Z.of_nat (length pool_a)) = Some pa ∧
          pool_b !! Z.to_nat ((current_index lb + 2 * Z.of_nat j + 1)
                              `mod` Z.of_nat (length pool_b)) = Some pb.
Proof.
  induction rounds as [|rounds IH];
    intros lb reg Hstrat Hpa Hpb Hane Hbne Hlo Hhi.
  - exists [], lb, reg. simpl. split_and!; [done | done |].
    intros j pick Hj. done.
  - destruct (select_round_robin_pair lb a b reg Hstrat)
      as (pa & pb & reg1 & reg2 & Ha & Hb & Hsel1 & Hsel2 & Hstable);
      [by rewrite Hpa | by rewrite Hpb | done | lia |].
    rewrite Hpa in Ha. rewrite Hpb in Hb.
    destruct (IH (mkLoadBalancer LB_ROUND_ROBIN (current_index lb + 2)) reg2)
      as (picks & lb' & reg' & Hrest & Hlen & Hpicks);
      [done | by rewrite Hstable | by rewrite Hstable | done | done
      | simpl; lia | simpl; lia |].
    exists ((Some pa, Some pb) :: picks), lb', reg'.
    simpl. rewrite Hsel1. simpl. rewrite Hsel2. simpl. rewrite Hrest. simpl.
    split_and!; [done | by rewrite Hlen |].
    intros [|j] pick Hj; simpl in Hj.
    + injection Hj as <-. exists pa, pb.
      rewrite Z.mul_0_r, Z.add_0_r. done.
    + destruct (Hpicks j pick Hj) as (qa & qb & -> & Hqa & Hqb).
      exists qa, qb. simpl in Hqa, Hqb.
      replace (current_index lb + 2 * Z.of_nat (S j))
        with (current_index lb + 2 + 2 * Z.of_nat j) by lia.
      done.
Qed.

(** X9: the round-robin counter is one for all services.  When selections
    for two services with healthy instances alternate, each selection moves
    the counter, so the service asked first is served from every second
    counter value: its [j]-th selection returns the instance at index
    [(counter + 2j) mod k].  With two instances of that service, every one
    of its selections returns the same instance and the other is never
    selected. *)
Theorem round_robin_counter_is_shared
    (lb : LoadBalancer) (a b : string) (reg : ServiceRegistry) (rounds : nat) :
  strategy lb = LB_ROUND_ROBIN →
  collect_instances a 0 (services reg) ≠ [] →
  collect_instances b 0 (services reg) ≠ [] →
  0 <= current_index lb →
  current_index lb + 2 * Z.of_nat rounds <= INT_MAX →
  ∃ picks lb' reg',
    select_alternately rounds lb a b reg = Done (picks, lb', reg') ∧
    length picks = rounds ∧
    (∀ (j : nat) pick,
       picks !! j = Some pick →
       ∃ pa pb,
         pick = (Some pa, Some pb) ∧
         collect_instances a 0 (services reg)
           !! Z.to_nat ((current_index lb + 2 * Z.of_nat j)
                        `mod` Z.of_nat
                                (length (collect_instances a 0 (services reg))))
         = Some pa ∧
         collect_instances b 0 (services reg)
           !! Z.to_nat ((current_index lb + 2 * Z.of_nat j + 1)
                        `mod` Z.of_nat
                                (length (collect_instances b 0 (services reg))))
         = Some pb) ∧
    (length (collect_instances a 0 (services reg)) = 2%nat →
     ∃ p,
       collect_instances a 0 (services reg)
         !! Z.to_nat (current_index lb `mod` 2) = Some p ∧
       ∀ pick, pick ∈ picks → pick.1 = Some p).
Proof.
  intros Hstrat Ha Hb Hlo Hhi.
  destruct (select_alternately_round_robin a b _ _ rounds lb reg Hstrat
              eq_refl eq_refl Ha Hb Hlo Hhi)
    as (picks & lb' & reg' & Hsel & Hlen & Hpicks).
  exists picks, lb', reg'. split_and!; [done | done | done |].
  intros Htwo.
  pose proof (Z.mod_pos_bound (current_index lb) 2 ltac:(lia)) as Hmod.
  destruct (lookup_lt_is_Some_2 (collect_instances a 0 (services reg))
              (Z.to_nat (current_index lb `mod` 2))) as [p Hp]; [lia|].
  exists p. split; [done|].
  intros pick Hin. apply list_elem_of_lookup in Hin as [j Hj].
  destruct (Hpicks j pick Hj) as (pa & pb & -> & Hpa & _). simpl.
  rewrite Htwo in Hpa. change (Z.of_nat 2) with 2 in Hpa.
  replace ((current_index lb + 2 * Z.of_nat j) `mod` 2)
    with (current_index lb `mod` 2) in Hpa; [congruence|].
  rewrite (Z.mul_comm 2), Z_mod_plus_full. done.
Qed.

Lemma round_robin_counter_is_shared_witness :
  ∃ picks lb' reg',
    select_alternately 3 (mkLoadBalancer LB_ROUND_ROBIN 0) "api" "web"
      api_web_registry
    = Done (picks, lb', reg') ∧
    length picks = 3%nat ∧
    (∀ (j : nat) pick,
       picks !! j = Some pick →
       ∃ pa pb,
         pick = (Some pa, Some pb) ∧
         collect_instances "api" 0 (services api_web_registry)
           !! Z.to_nat ((0 + 2 * Z.of_nat j)
                        `mod` Z.of_nat
                                (length (collect_instances "api" 0
                                           (services api_web_registry))))
         = Some pa ∧
         collect_instances "web" 0 (services api_web_registry)
           !! Z.to_nat ((0 + 2 * Z.of_nat j + 1)
                        `mod` Z.of_nat
                                (length (collect_instances "web" 0
                                           (services api_web_registry))))
         = Some pb) ∧
    (length (collect_instances "api" 0 (services api_web_registry)) = 2%nat →
     ∃ p,
       collect_instances "api" 0 (services api_web_registry)
         !! Z.to_nat (0 `mod` 2) = Some p ∧
       ∀ pick, pick ∈ picks → pick.1 = Some p).
Proof.
  apply (round_robin_counter_is_shared (mkLoadBalancer LB_ROUND_ROBIN 0)
           "api" "web" api_web_registry 3);
    [reflexivity | vm_compute; discriminate | vm_compute; discriminate
    | simpl; lia | vm_compute; discriminate].
Defined.

Example alternating_selections_starve_an_instance :
  fst <$> select_alternately 3 (mkLoadBalancer LB_ROUND_ROBIN 0) "api" "web"
            api_web_registry
  = Done ([(Some 1%nat, Some 0%nat); (Some 1%nat, Some 0%nat);
           (Some 1%nat, Some 0%nat)],
          mkLoadBalancer LB_ROUND_ROBIN 6).
Proof. vm_compute. reflexivity. Qed.

(** ** Least connections over time *)

(** One least-connections selection. *)
Lemma select_least_connections_step (lb : LoadBalancer) (name : string)
    (reg : ServiceRegistry) :
  strategy lb = LB_LEAST_CONNECTIONS →
  collect_instances name 0 (services reg) ≠ [] →
  ∃ p n,
    select_service_instance lb name reg =
      Done (Some p, lb,
            mkServiceRegistry
              (<[p := set_load n (int_incr (load n))]> (services reg))
              (num_services reg)) ∧
    p ∈ collect_instances name 0 (services reg) ∧
    services reg !! p = Some n ∧
    ∀ q m, q ∈ collect_instances name 0 (services reg) →
           services reg !! q = Some m → load n <= load m.
Proof.
  intros Hstrat Hne. unfold select_service_instance. rewrite Hstrat.
  pose proof (collect_instances_sorted name (services reg) 0) as Hsorted.
  pose proof (collect_instances_valid name (services reg)) as Hvalid.
  destruct (collect_instances name 0 (services reg)) as [|first rest];
    [done|].
  clear Hne. simpl length. rewrite Nat2Z.inj_succ.
  destruct (Z.ltb_spec 0 (Z.succ (Z.of_nat (length rest)))); [|lia].
  unfold array_get. simpl. rewrite drop_0.
  destruct (least_connections_loop_min (services reg) rest first Hsorted)
    as (r & n & Hloop & Hr & Hn & Hmin).
  { intros q Hq. apply Hvalid in Hq as (m & Hm & _). by exists m. }
  rewrite Hloop. simpl. unfold node_at. rewrite Hn. simpl.
  exists r, n. split_and!; [done | done | done |].
  intros q m Hq Hm. by apply (Hmin q m).
Qed.

(** X8: least connections keeps a pool level.  If the loads of the healthy
    instances of a service differ by at most [spread] (at least 1), then
    after any number of least-connections selections in a row they still
    differ by at most [spread], every selection having returned an
    instance; stated for loads that stay in the range of [int]. *)
Theorem least_connections_keeps_balance
    (name : string) (pool : list nat) (spread : Z) (k : nat) :
  ∀ (lb : LoadBalancer) (reg : ServiceRegistry),
    strategy lb = LB_LEAST_CONNECTIONS →
    collect_instances name 0 (services reg) = pool →
    pool ≠ [] →
    1 <= spread →
    (∀ p n, p ∈ pool → services reg !! p = Some n →
            INT_MIN <= load n ∧ load n + Z.of_nat k <= INT_MAX) →
    (∀ p q n m, p ∈ pool → q ∈ pool →
                services reg !! p = Some n → services reg !! q = Some m →
                load n - load m <= spread) →
    ∃ ps reg',
      select_repeatedly k lb name reg = Done (Some <$> ps, lb, reg') ∧
      length ps = k ∧
      (∀ p, p ∈ ps → p ∈ pool) ∧
      collect_instances name 0 (services reg') = pool ∧
      (∀ p q n m, p ∈ pool → q ∈ pool →
                  services reg' !! p = Some n → services reg' !! q = Some m →
                  load n - load m <= spread).
Proof.
  induction k as [|k IH];
    intros lb reg Hstrat Hpool Hne Hspread Hrange Hbal.
  - exists [], reg. simpl. split_and!; [done | done | | done | done].
    intros p Hp. by apply elem_of_nil in Hp.
  - destruct (select_least_connections_step lb name reg Hstrat)
      as (s & ns & Hsel & Hs & Hns & Hmin); [by rewrite Hpool|].
    rewrite Hpool in Hs, Hmin.
    destruct (Hrange s ns Hs Hns) as [Hlo Hhi].
    rewrite int_incr_no_overflow in Hsel by lia.
    set (reg1 := mkServiceRegistry
                   (<[s := set_load ns (load ns + 1)]> (services reg))
                   (num_services reg)) in *.
    assert (∀ p n, services reg1 !! p = Some n →
              (p = s ∧ n = set_load ns (load ns + 1)) ∨
              (p ≠ s ∧ services reg !! p = Some n)) as Hcases.
    { intros p n Hp. simpl in Hp. destruct (decide (p = s)) as [->|Hps].
      - rewrite list_lookup_insert_eq in Hp by (by eapply lookup_lt_Some).
        left. split; [done | congruence].
      - rewrite list_lookup_insert_ne in Hp by done. by right. }
    destruct (IH lb reg1) as (ps & reg' & Hrest & Hlen & Hin & Hpool' & Hbal');
      [done | | done | done | |  |].
    { simpl. by rewrite collect_instances_set_load. }
    { intros p n Hp Hn. apply Hcases in Hn as [[-> ->]|[Hps Hn]].
      - simpl. lia.
      - destruct (Hrange p n Hp Hn). lia. }
    { intros p q n m Hp Hq Hn Hm.
      apply Hcases in Hn as [[-> ->]|[Hps Hn]];
        apply Hcases in Hm as [[-> ->]|[Hqs Hm]]; simpl.
      - lia.
      - specialize (Hmin q m Hq Hm). lia.
      - specialize (Hbal p s n ns Hp Hs Hn Hns). lia.
      - by apply (Hbal p q n m). }
    exists (s :: ps), reg'. simpl. rewrite Hsel. simpl. rewrite Hrest. simpl.
    split_and!; [done | by rewrite Hlen | | done | done].
    intros p Hp. apply elem_of_cons in Hp as [->|Hp]; [done | by apply Hin].
Qed.

Lemma least_connections_keeps_balance_witness :
  ∃ ps reg',
    select_repeatedly 5 (mkLoadBalancer LB_LEAST_CONNECTIONS 0) "web"
      web_registry
    = Done (Some <$> ps, mkLoadBalancer LB_LEAST_CONNECTIONS 0, reg') ∧
    length ps = 5%nat ∧
    (∀ p, p ∈ ps → p ∈ [0; 1; 2]%nat) ∧
    collect_instances "web" 0 (services reg') = [0; 1; 2]%nat ∧
    (∀ p q n m, p ∈ [0; 1; 2]%nat → q ∈ [0; 1; 2]%nat →
                services reg' !! p = Some n → services reg' !! q = Some m →
                load n - load m <= 1).
Proof.
  apply (least_connections_keeps_balance "web" [0; 1; 2]%nat 1 5
           (mkLoadBalancer LB_LEAST_CONNECTIONS 0) web_registry).
  - reflexivity.
  - reflexivity.
  - discriminate.
  - lia.
  - intros p n Hp Hn. unfold INT_MIN, INT_MAX.
    destruct p as [|[|[|p]]]; simpl in Hn; try discriminate Hn;
      injection Hn as <-; simpl; lia.
  - intros p q n m _ _ Hn Hm.
    destruct p as [|[|[|p]]]; simpl in Hn; try discriminate Hn;
      injection Hn as <-;
      destruct q as [|[|[|q]]]; simpl in Hm; try discriminate Hm;
      injection Hm as <-; simpl; lia.
Defined.

(** ** The cells of the heap *)

(** A heap and a start pointer hold one list of a given length. *)
Lemma chain_unique (g : gmap Z Message) (l1 : list (Z * Message)) :
  ∀ (l2 : list (Z * Message)) (p : Z),
    length l1 = length l2 → chain g p l1 → chain g p l2 → l1 = l2.
Proof.
  induction l1 as [|[a1 m1] l1 IH]; intros [|[a2 m2] l2] p Hlen;
    simpl; try done.
  intros (-> & _ & Hm1 & Hc1) (<- & _ & Hm2 & Hc2).
  assert (m1 = m2) as -> by congruence.
  f_equal. eapply IH; [by injection Hlen | done | done].
Qed.

Lemma chain_last_cell (h : gmap Z Message) (front : list (Z * Message))
    (t : Z) (mt : Message) :
  ∀ p, chain h p (front ++ [(t, mt)]) → h !! t = Some mt.
Proof.
  induction front as [|[a0 m0] rest IH]; simpl; intros p Hc.
  - by destruct Hc as (_ & _ & ? & _).
  - destruct Hc as (_ & _ & _ & Hrest). by eapply IH.
Qed.

(** The locked section of [eghact_send_message] again, with the addresses:
    the new cell is the last of the list, and the heap has gained no other
    cell. *)
Lemma enqueue_rep_addresses (h : gmap Z Message) (q : MessageQueue)
    (cells : list (Z * Message)) (a : Z) (m : Message) :
  queue_rep h q cells →
  h !! a = None → a ≠ NULL → next m = NULL →
  ∃ h' q' cells',
    enqueue a (<[a := m]> h) q = Done (h', q') ∧
    queue_rep h' q' cells' ∧
    cells'.*1 = cells.*1 ++ [a] ∧
    dom h' = {[a]} ∪ dom h.
Proof.
  intros Hrep Ha Hnn Hnext.
  destruct (enqueue_rep h q cells a m Hrep Ha Hnn Hnext)
    as (h' & q' & cells' & Henq & Hrep' & Hcont).
  assert (length cells' = S (length cells)) as Hlen.
  { apply (f_equal length) in Hcont. unfold contents, fifo_enqueue in Hcont.
    rewrite length_app, !length_fmap in Hcont. simpl in Hcont. lia. }
  exists h', q', cells'. split_and!; [done | done | |].
  - destruct Hrep as (Hc & Hnd & Htail).
    destruct Hrep' as (Hc' & _ & _). revert Henq Hc'. unfold enqueue.
    induction cells as [|[t mt] front _] using rev_ind.
    + simpl in *. rewrite Htail. simpl. intros [= <- <-] Hc'. simpl in Hc'.
      rewrite (chain_unique (<[a := m]> h) cells' [(a, m)] a); [done | done | done |].
      simpl. split_and!; [done | done | by rewrite lookup_insert_eq | done].
    + rewrite fmap_app in Htail. simpl in Htail. rewrite last_snoc in Htail.
      simpl in Htail. rewrite Htail.
      pose proof (chain_last_cell h front t mt _ Hc) as Hmt.
      destruct (chain_lookup h (head q) (front ++ [(t, mt)]) t Hc)
        as [_ Htn]; [rewrite fmap_app; apply elem_of_app; right; by left|].
      destruct (Z.eqb_spec t NULL) as [|_]; [done|].
      assert (t ≠ a) by congruence.
      rewrite lookup_insert_ne by done. rewrite Hmt. intros [= <- <-] Hc'.
      simpl in Hc'.
      rewrite (chain_unique (<[t := set_next mt a]> (<[a := m]> h)) cells'
                 (front ++ [(t, set_next mt a); (a, m)]) (head q)).
      * rewrite !fmap_app. simpl. by rewrite <-(assoc_L (++)).
      * rewrite Hlen, !length_app. simpl. lia.
      * done.
      * by apply chain_link_behind.
  - revert Henq. unfold enqueue.
    destruct (tail q =? NULL).
    + intros [= <- _]. by rewrite dom_insert_L.
    + destruct (<[a := m]> h !! tail q) as [t|] eqn:Ht; [|done].
      intros [= <- _]. rewrite !dom_insert_L.
      assert (tail q ∈ dom (<[a := m]> h)) as Hin
          by (apply elem_of_dom; by eexists).
      rewrite dom_insert_L in Hin.
      apply subseteq_union_1_L. by apply singleton_subseteq_l.
Qed.

Section HeapClaims.

Variable malloc : gmap Z Message → Z.
Hypothesis malloc_fresh : ∀ h, h !! malloc h = None.

(** One call, seen from the heap. *)
Lemma step_heap_exact (c : Call) (rt rt' : Runtime) (reply : Reply)
    (cells : list (Z * Message)) :
  step malloc c rt = Done (reply, rt') →
  queue_rep (heap rt) (message_queue (orch rt)) cells →
  dom (heap rt) = list_to_set cells.*1 →
  ∃ cells',
    queue_rep (heap rt') (message_queue (orch rt')) cells' ∧
    dom (heap rt') = list_to_set cells'.*1.
Proof.
  intros Hstep Hrep Hdom.
  destruct c as [name hst prt|name|from to body|probe|]; simpl in Hstep.
  - injection Hstep as _ <-. by exists cells.
  - unfold eghact_discover_service in Hstep.
    destruct (select_service_instance _ _ _) as [[[sel lb'] reg']|]; [|done].
    simpl in Hstep. injection Hstep as _ <-. by exists cells.
  - unfold eghact_send_message in Hstep.
    destruct (Z.eqb_spec (malloc (heap rt)) NULL) as [|Hnn]; [done|].
    destruct (enqueue_rep_addresses (heap rt) _ cells (malloc (heap rt))
                (mkMessage from to body 5 NULL) Hrep)
      as (h' & q' & cells' & Henq & Hrep' & Haddr & Hdom'); [done..|].
    rewrite Henq in Hstep. simpl in Hstep. injection Hstep as _ <-. simpl.
    exists cells'. split; [done|].
    rewrite Hdom', Haddr, Hdom, list_to_set_app_L. simpl.
    by rewrite (right_id_L ∅ (∪)), (comm_L (∪)).
  - destruct (health_check_iteration probe (registry (orch rt))) as [reg' steps].
    injection Hstep as _ <-. by exists cells.
  - destruct cells as [|[a m] cells].
    + rewrite (dispatcher_waits rt Hrep) in Hstep. simpl in Hstep.
      injection Hstep as _ <-. by exists [].
    + pose proof Hrep as (_ & Hnd & _).
      apply dequeue_rep in Hrep as (q' & Hhead & Hnn & Hdeq & Hrep').
      unfold message_dispatcher_iteration in Hstep. rewrite Hhead in Hstep.
      destruct (Z.eqb_spec a NULL) as [|_]; [done|].
      rewrite Hdeq in Hstep. simpl in Hstep.
      unfold eghact_discover_service in Hstep. simpl in Hstep.
      destruct (select_service_instance _ _ _) as [[[sel lb'] reg']|]; [|done].
      simpl in Hstep. injection Hstep as _ <-. simpl.
      exists cells. split; [done|].
      rewrite dom_delete_L, Hdom. simpl in *.
      apply NoDup_cons in Hnd as [Hnotin _].
      assert (a ∉ (list_to_set cells.*1 : gset Z)) as Hnot
          by (by rewrite elem_of_list_to_set).
      rewrite difference_union_distr_l_L, difference_diag_L, (left_id_L ∅ (∪)).
      apply difference_disjoint_L. by apply disjoint_singleton_r.
Qed.

(** X11: the heap holds the queued messages and nothing else.  With an
    allocator that answers with unused addresses, if the cells on the heap
    are exactly the cells of the queue, they still are after any sequence
    of calls: no send loses track of a cell, no dispatcher turn frees a
    cell that is still queued or leaves a handled one behind.  When the
    queue is empty again the heap is empty. *)
Theorem heap_holds_exactly_the_queue (calls : list Call) :
  ∀ (rt rt' : Runtime) (replies : list Reply) (cells : list (Z * Message)),
    run malloc calls rt = Done (replies, rt') →
    queue_rep (heap rt) (message_queue (orch rt)) cells →
    dom (heap rt) = list_to_set cells.*1 →
    ∃ cells',
      queue_rep (heap rt') (message_queue (orch rt')) cells' ∧
      dom (heap rt') = list_to_set cells'.*1 ∧
      (head (message_queue (orch rt')) = NULL → heap rt' = ∅).
Proof.
  induction calls as [|c rest IH]; intros rt rt' replies cells; simpl.
  - intros [= _ <-] Hrep Hdom. exists cells. split_and!; [done | done |].
    intros Hnull. destruct Hrep as (Hc & _ & _).
    destruct cells as [|[a m] cells]; simpl in *.
    + by apply dom_empty_inv_L.
    + destruct Hc as (Ha & Hnn & _). congruence.
  - destruct (step malloc c rt) as [[reply rt1]|] eqn:Hstep; [|done]. simpl.
    destruct (run malloc rest rt1) as [[replies' rt2]|] eqn:Hrun; [|done].
    simpl. intros [= _ <-] Hrep Hdom.
    destruct (step_heap_exact c rt rt1 reply cells Hstep Hrep Hdom)
      as (cells1 & Hrep1 & Hdom1).
    by apply (IH rt1 rt2 replies' cells1).
Qed.

End HeapClaims.

Lemma heap_holds_exactly_the_queue_witness :
  ∃ (replies : list Reply) (rt' : Runtime),
    run first_free
      [SendMessage "cart" "billing" "m1"; SendMessage "cart" "stock" "m2";
       Dispatch; SendMessage "web" "billing" "m3"; Dispatch; Dispatch]
      initial_runtime
    = Done (replies, rt') ∧
    ∃ cells',
      queue_rep (heap rt') (message_queue (orch rt')) cells' ∧
      dom (heap rt') = list_to_set cells'.*1 ∧
      (head (message_queue (orch rt')) = NULL → heap rt' = ∅).
Proof.
  destruct (run first_free
              [SendMessage "cart" "billing" "m1"; SendMessage "cart" "stock" "m2";
               Dispatch; SendMessage "web" "billing" "m3"; Dispatch; Dispatch]
              initial_runtime) as [[replies rt']|] eqn:Hrun;
    [|vm_compute in Hrun; discriminate Hrun].
  exists replies, rt'. split; [reflexivity|].
  apply (heap_holds_exactly_the_queue first_free first_free_fresh _
           initial_runtime rt' replies [] Hrun).
  - exact initial_runtime_queue_rep.
  - simpl. by rewrite dom_empty_L.
Defined.

(** ** Recovery of a circuit breaker *)

Section CircuitBreakerRecovery.

Context {W : Type} (time : W → Z).

(** While two breakers are CLOSED, the time of the last failure has no
    part in what they do. *)
Lemma circuit_series_ignores_old_failure_time
    (calls : list ((W → Z * W) * W)) :
  ∀ (cb cb' : CircuitBreaker),
    failure_count cb = failure_count cb' →
    failure_threshold cb = failure_threshold cb' →
    timeout_duration cb = timeout_duration cb' →
    state cb = state cb' →
    (state cb ≠ CLOSED → last_failure_time cb = last_failure_time cb') →
    (circuit_breaker_calls time cb calls).1
    = (circuit_breaker_calls time cb' calls).1 ∧
    failure_count (circuit_breaker_calls time cb calls).2
    = failure_count (circuit_breaker_calls time cb' calls).2 ∧
    state (circuit_breaker_calls time cb calls).2
    = state (circuit_breaker_calls time cb' calls).2.
Proof.
  induction calls as [|[func w] rest IH]; intros cb cb' Hc Ht Hd Hs Hl.
  - done.
  - cbn [circuit_breaker_calls].
    destruct (circuit_breaker_call time cb func w) as [[r cb1] w1] eqn:Hcall.
    destruct (circuit_breaker_call time cb' func w) as [[r' cb1'] w1'] eqn:Hcall'.
    assert (r = r' ∧ failure_count cb1 = failure_count cb1' ∧
            failure_threshold cb1 = failure_threshold cb1' ∧
            timeout_duration cb1 = timeout_duration cb1' ∧
            state cb1 = state cb1' ∧
            (state cb1 ≠ CLOSED → last_failure_time cb1 = last_failure_time cb1'))
      as (-> & Hc1 & Ht1 & Hd1 & Hs1 & Hl1).
    { destruct cb as [c t d l s], cb' as [c' t' d' l' s'].
      simpl in Hc, Ht, Hd, Hs, Hl. subst c' t' d' s'.
      destruct s.
      - unfold circuit_breaker_call, circuit_gate in Hcall, Hcall'.
        simpl in Hcall, Hcall'. destruct (func w) as [res w2].
        destruct (res =? 0).
        + injection Hcall as <- <- _. injection Hcall' as <- <- _. done.
        + simpl in Hcall, Hcall'.
          destruct (t <=? int_incr c); injection Hcall as <- <- _;
            injection Hcall' as <- <- _; done.
      - rewrite <-(Hl ltac:(done)) in Hcall'. rewrite Hcall in Hcall'.
        injection Hcall' as <- <- _. done.
      - rewrite <-(Hl ltac:(done)) in Hcall'. rewrite Hcall in Hcall'.
        injection Hcall' as <- <- _. done. }
    destruct (IH cb1 cb1' Hc1 Ht1 Hd1 Hs1 Hl1) as (Hr & Hfc & Hfs).
    destruct (circuit_breaker_calls time cb1 rest) as [rs cb2].
    destruct (circuit_breaker_calls time cb1' rest) as [rs' cb2'].
    simpl in *. by rewrite Hr.
Qed.

(** X12: recovery is a fresh start.  When an OPEN breaker lets a call
    through after the timeout and the call succeeds, the breaker goes on
    exactly as a newly created one with the same threshold and timeout
    would: for every series of later calls the answers, the failure count
    and the state are the same. *)
Theorem circuit_breaker_recovery_is_a_fresh_start
    (cb : CircuitBreaker) (func : W → Z * W) (w : W)
    (calls : list ((W → Z * W) * W)) :
  state cb = OPEN →
  timeout_duration cb < time_diff (time w) (last_failure_time cb) →
  (func w).1 = 0 →
  let recovered := (circuit_breaker_call time cb func w).1.2 in
  let fresh :=
    create_circuit_breaker (failure_threshold cb) (timeout_duration cb) in
  (circuit_breaker_calls time recovered calls).1
  = (circuit_breaker_calls time fresh calls).1 ∧
  failure_count (circuit_breaker_calls time recovered calls).2
  = failure_count (circuit_breaker_calls time fresh calls).2 ∧
  state (circuit_breaker_calls time recovered calls).2
  = state (circuit_breaker_calls time fresh calls).2.
Proof.
  intros Hopen Hlate Hok recovered fresh.
  assert (circuit_gate (time w) cb = Some (set_state cb HALF_OPEN)) as Hgate.
  { unfold circuit_gate. rewrite Hopen.
    destruct (Z.ltb_spec (timeout_duration cb)
                (time_diff (time w) (last_failure_time cb))); [done | lia]. }
  unfold recovered.
  rewrite (circuit_call_success time cb _ func w Hgate Hok). simpl.
  by apply circuit_series_ignores_old_failure_time.
Qed.

End CircuitBreakerRecovery.

Lemma circuit_breaker_recovery_is_a_fresh_start_witness :
  let recovered :=
    (circuit_breaker_call fst (mkCircuitBreaker 3 3 60 130 OPEN)
       passing_call (200, 3%nat)).1.2 in
  let fresh := create_circuit_breaker 3 60 in
  (circuit_breaker_calls fst recovered
     [(failing_call, (210, 4%nat)); (failing_call, (220, 5%nat))]).1
  = (circuit_breaker_calls fst fresh
       [(failing_call, (210, 4%nat)); (failing_call, (220, 5%nat))]).1 ∧
  failure_count
    (circuit_breaker_calls fst recovered
       [(failing_call, (210, 4%nat)); (failing_call, (220, 5%nat))]).2
  = failure_count
      (circuit_breaker_calls fst fresh
         [(failing_call, (210, 4%nat)); (failing_call, (220, 5%nat))]).2 ∧
  state
    (circuit_breaker_calls fst recovered
       [(failing_call, (210, 4%nat)); (failing_call, (220, 5%nat))]).2
  = state
      (circuit_breaker_calls fst fresh
         [(failing_call, (210, 4%nat)); (failing_call, (220, 5%nat))]).2.
Proof.
  apply (circuit_breaker_recovery_is_a_fresh_start fst
           (mkCircuitBreaker 3 3 60 130 OPEN) passing_call (200, 3%nat)
           [(failing_call, (210, 4%nat)); (failing_call, (220, 5%nat))]).
  - reflexivity.
  - vm_compute. reflexivity.
  - reflexivity.
Defined.

(** ** The JSON text of [discover_service] *)










Example discover_service_text_length :
  String.length
    (snprintf 256 (node_json (mkServiceNode "1" "payments" "10.0.0.2" 8080 1 1)))
  = 40%nat.
Proof. vm_compute. reflexivity. Qed.

(** ** Loads over a series of selections *)

(** Over a series of selections for one name, the load of each node grows
    by the number of times the node was returned, and nothing else of the
    node changes. *)
Lemma select_repeatedly_loads (name : string) (k : nat) :
  ∀ (lb lb' : LoadBalancer) (reg reg' : ServiceRegistry)
    (selections : list NodePtr),
    select_repeatedly k lb name reg = Done (selections, lb', reg') →
    (∀ n, n ∈ services reg →
          INT_MIN <= load n ∧ load n + Z.of_nat k <= INT_MAX) →
    ∀ q n, services reg !! q = Some n →
           services reg' !! q
           = Some (set_load n (load n + times_selected q selections)).
Proof.
  induction k as [|k IH]; intros lb lb' reg reg' selections; simpl.
  - intros [= <- _ <-] _ q n Hq. rewrite Hq, Z.add_0_r. by destruct n.
  - destruct (select_service_instance lb name reg)
      as [[[sel lb1] reg1]|] eqn:Hsel; [|done]. simpl.
    destruct (select_repeatedly k lb1 name reg1)
      as [[[sels lb2] reg2]|] eqn:Hrest; [|done]. simpl.
    intros [= <- <- <-] Hrange q n Hq.
    apply select_service_instance_frame in Hsel as (_ & _ & Hsel).
    destruct sel as [p|].
    + destruct Hsel as ((m & Hm & _ & _ & Hserv) & _).
      assert (INT_MIN <= load m ∧ load m + Z.of_nat (S k) <= INT_MAX)
        as [Hlo Hhi] by (apply Hrange; by eapply list_elem_of_lookup_2).
      rewrite int_incr_no_overflow in Hserv by lia.
      assert (∀ n1, n1 ∈ services reg1 →
                INT_MIN <= load n1 ∧ load n1 + Z.of_nat k <= INT_MAX) as Hrange1.
      { intros n1 Hn1. rewrite Hserv in Hn1.
        apply list_elem_of_lookup in Hn1 as [i Hi].
        destruct (decide (i = p)) as [->|Hne].
        - rewrite list_lookup_insert_eq in Hi by (by eapply lookup_lt_Some).
          injection Hi as <-. simpl. lia.
        - rewrite list_lookup_insert_ne in Hi by done.
          destruct (Hrange n1); [by eapply list_elem_of_lookup_2 | lia]. }
      simpl. destruct (decide (p = q)) as [->|Hne].
      * assert (n = m) as -> by congruence.
        rewrite (IH _ _ _ _ _ Hrest Hrange1 q (set_load m (load m + 1))).
        -- simpl. unfold set_load. simpl. do 2 f_equal. lia.
        -- rewrite Hserv. apply list_lookup_insert_eq. by eapply lookup_lt_Some.
      * rewrite (IH _ _ _ _ _ Hrest Hrange1 q n).
        -- by rewrite Z.add_0_l.
        -- rewrite Hserv. by rewrite list_lookup_insert_ne.
    + destruct Hsel as [_ ->]. simpl.
      apply (IH _ _ _ _ _ Hrest); [|done].
      intros n1 Hn1. destruct (Hrange n1 Hn1). lia.
Qed.

Lemma times_selected_NoDup (q : nat) (ps : list nat) :
  NoDup ps →
  times_selected q (Some <$> ps) = if decide (q ∈ ps) then 1 else 0.
Proof.
  induction 1 as [|p ps Hnotin Hnd IH].
  - simpl. by destruct (decide (q ∈ [])) as [Hin|]; [apply elem_of_nil in Hin|].
  - rewrite fmap_cons. cbn [times_selected]. rewrite IH.
    destruct (decide (p = q)) as [->|Hne].
    + destruct (decide (q ∈ ps)); [done|].
      destruct (decide (q ∈ q :: ps)) as [|Hn]; [done|].
      exfalso. apply Hn. by left.
    + destruct (decide (q ∈ ps)) as [Hin|Hnin].
      * destruct (decide (q ∈ p :: ps)) as [|Hn]; [done|].
        exfalso. apply Hn. by right.
      * destruct (decide (q ∈ p :: ps)) as [Hin|]; [|done].
        apply elem_of_cons in Hin as [->|Hin]; done.
Qed.

(** X14: a round of round robin costs every instance one connection.
    With [k >= 1] healthy instances of the service, the counter and the
    loads in the range of [int], [k] round-robin selections in a row leave
    every healthy instance of the service with its load one higher and
    every other node of the registry exactly as it was. *)
Theorem round_robin_spreads_load
    (lb : LoadBalancer) (name : string) (reg : ServiceRegistry) (k : nat) :
  strategy lb = LB_ROUND_ROBIN →
  length (collect_instances name 0 (services reg)) = k →
  (1 ≤ k)%nat →
  0 <= current_index lb →
  current_index lb + Z.of_nat k <= INT_MAX →
  (∀ n, n ∈ services reg →
        INT_MIN <= load n ∧ load n + Z.of_nat k <= INT_MAX) →
  ∃ selections lb' reg',
    select_repeatedly k lb name reg = Done (selections, lb', reg') ∧
    ∀ q n, services reg !! q = Some n →
           services reg' !! q
           = Some (set_load n
                     (load n +
                      if decide (q ∈ collect_instances name 0 (services reg))
                      then 1 else 0)).
Proof.
  intros Hstrat Hk Hpos Hlo Hhi Hrange.
  set (instances := collect_instances name 0 (services reg)) in *.
  destruct (select_repeatedly_round_robin name instances k lb reg)
    as (ps & lb' & reg' & Hrep & Hlen & Hps & Hinst); [done..| | done | done |].
  { intros ->. simpl in Hk. lia. }
  assert (ps = rotate (Z.to_nat (current_index lb)) instances) as Hrot.
  { apply list_eq. intros i. destruct (decide (i < k)%nat) as [Hi|Hi].
    - rewrite Hps, lookup_rotate_r by lia. unfold rotate_nat_add.
      by rewrite Z2Nat.id.
    - rewrite !lookup_ge_None_2; [done | rewrite length_rotate; lia | lia]. }
  exists (Some <$> ps), lb', reg'. split; [done|].
  intros q n Hq.
  rewrite (select_repeatedly_loads name k _ _ _ _ _ Hrep Hrange q n Hq).
  rewrite times_selected_NoDup.
  - do 3 f_equal. rewrite Hrot.
    destruct (decide (q ∈ rotate (Z.to_nat (current_index lb)) instances))
      as [Hin|Hnin]; rewrite elem_of_rotate in *;
      by destruct (decide (q ∈ instances)).
  - rewrite Hrot, rotate_Permutation. apply collect_instances_NoDup.
Qed.

Lemma round_robin_spreads_load_witness :
  ∃ selections lb' reg',
    select_repeatedly 3 (mkLoadBalancer LB_ROUND_ROBIN 7) "web" web_registry
    = Done (selections, lb', reg') ∧
    ∀ q n, services web_registry !! q = Some n →
           services reg' !! q
           = Some (set_load n
                     (load n +
                      if decide (q ∈ collect_instances "web" 0
                                       (services web_registry))
                      then 1 else 0)).
Proof.
  apply (round_robin_spreads_load (mkLoadBalancer LB_ROUND_ROBIN 7) "web"
           web_registry 3);
    [reflexivity | reflexivity | lia | simpl; lia | vm_compute; discriminate |].
  intros n Hn. unfold INT_MIN, INT_MAX. simpl in Hn.
  apply elem_of_cons in Hn as [->|Hn]; [simpl; lia|].
  apply elem_of_cons in Hn as [->|Hn]; [simpl; lia|].
  apply list_elem_of_singleton in Hn as ->. simpl. lia.
Defined.

(** ** Messages for one service *)

(** A full round of round-robin selections returns the array of healthy
    instances rotated by the counter. *)
Lemma select_repeatedly_round (lb : LoadBalancer) (name : string)
    (reg : ServiceRegistry) :
  strategy lb = LB_ROUND_ROBIN →
  collect_instances name 0 (services reg) ≠ [] →
  0 <= current_index lb →
  current_index lb
  + Z.of_nat (length (collect_instances name 0 (services reg))) <= INT_MAX →
  ∃ lb' reg',
    select_repeatedly (length (collect_instances name 0 (services reg)))
      lb name reg
    = Done (Some <$> rotate (Z.to_nat (current_index lb))
                       (collect_instances name 0 (services reg)),
            lb', reg').
Proof.
  intros Hstrat Hne Hlo Hhi.
  set (instances := collect_instances name 0 (services reg)) in *.
  destruct (select_repeatedly_round_robin name instances (length instances)
              lb reg)
    as (ps & lb' & reg' & Hrep & Hlen & Hps & Hinst); [done..|].
  exists lb', reg'. rewrite Hrep.
  assert (ps = rotate (Z.to_nat (current_index lb)) instances) as ->; [|done].
  apply list_eq. intros i.
  destruct (decide (i < length instances)%nat) as [Hi|Hi].
  - rewrite Hps, lookup_rotate_r by lia. unfold rotate_nat_add.
    by rewrite Z2Nat.id.
  - rewrite !lookup_ge_None_2; [done | rewrite length_rotate; lia | lia].
Qed.

(** Dispatcher turns on a queue of messages for one service are the
    selections for that service, one per message, each followed by the
    delivery. *)
Lemma dispatch_series_for_one_service (malloc : gmap Z Message → Z)
    (name : string) (cells : list (Z * Message)) :
  ∀ (rt : Runtime) (ps : list nat) (lb' : LoadBalancer)
    (reg' : ServiceRegistry),
    queue_rep (heap rt) (message_queue (orch rt)) cells →
    (∀ c, c ∈ cells → to_service c.2 = name) →
    select_repeatedly (length cells) (load_balancer (orch rt)) name
      (registry (orch rt))
    = Done (Some <$> ps, lb', reg') →
    ∃ rt',
      run malloc (replicate (length cells) Dispatch) rt
      = Done (zip_with (λ p c, Dispatched (Delivered p c.2)) ps cells, rt') ∧
      registry (orch rt') = reg' ∧
      load_balancer (orch rt') = lb' ∧
      queue_rep (heap rt') (message_queue (orch rt')) [].
Proof.
  induction cells as [|[a m] cells IH]; intros rt ps lb' reg' Hrep Hto; simpl.
  - intros [= Hps <- <-]. exists rt. destruct ps; [|done]. done.
  - destruct (select_service_instance _ _ _)
      as [[[sel lb1] reg1]|] eqn:Hsel; [|done]. simpl.
    destruct (select_repeatedly _ lb1 name reg1)
      as [[[sels lb2] reg2]|] eqn:Hrest; [|done]. simpl.
    intros [= Hps <- <-]. destruct ps as [|p ps]; [done|].
    injection Hps as -> ->.
    apply dequeue_rep in Hrep as (q' & Hhead & Hnn & Hdeq & Hrep').
    unfold message_dispatcher_iteration. rewrite Hhead.
    destruct (Z.eqb_spec a NULL) as [|_]; [done|].
    rewrite Hdeq. simpl. unfold eghact_discover_service. simpl.
    assert (to_service m = name) as -> by (apply (Hto (a, m)); by left).
    rewrite Hsel. simpl.
    destruct (IH (mkRuntime (mkEghactOrchestrator reg1 q' lb1)
                    (delete a (heap rt)) (issued rt)) ps lb2 reg2)
      as (rt' & Hrun & Hreg & Hlb & Hempty); [done | | done |].
    { intros c Hc. apply Hto. by right. }
    rewrite Hrun. simpl. by exists rt'.
Qed.

(** X15: messages for one service go round its instances.  Under round
    robin, when the queue holds [k] messages, all for a service with
    exactly [k] healthy instances, [k] dispatcher turns deliver the
    messages in queue order, each to another instance: the targets are the
    array of healthy instances rotated by the counter, every instance
    getting exactly one message; the queue is empty afterwards. *)
Theorem dispatcher_spreads_messages
    (malloc : gmap Z Message → Z) (rt : Runtime) (name : string)
    (cells : list (Z * Message)) :
  queue_rep (heap rt) (message_queue (orch rt)) cells →
  (∀ c, c ∈ cells → to_service c.2 = name) →
  strategy (load_balancer (orch rt)) = LB_ROUND_ROBIN →
  cells ≠ [] →
  length (collect_instances name 0 (services (registry (orch rt))))
  = length cells →
  0 <= current_index (load_balancer (orch rt)) →
  current_index (load_balancer (orch rt)) + Z.of_nat (length cells) <= INT_MAX →
  ∃ targets rt',
    run malloc (replicate (length cells) Dispatch) rt
    = Done (zip_with (λ p c, Dispatched (Delivered p c.2)) targets cells, rt') ∧
    targets = rotate (Z.to_nat (current_index (load_balancer (orch rt))))
                (collect_instances name 0 (services (registry (orch rt)))) ∧
    targets ≡ₚ collect_instances name 0 (services (registry (orch rt))) ∧
    queue_rep (heap rt') (message_queue (orch rt')) [].
Proof.
  intros Hrep Hto Hstrat Hne Hk Hlo Hhi.
  destruct (select_repeatedly_round (load_balancer (orch rt)) name
              (registry (orch rt)) Hstrat)
    as (lb' & reg' & Hsel); [| done | by rewrite Hk |].
  { intros Hnil. rewrite Hnil in Hk. by destruct cells. }
  rewrite Hk in Hsel.
  destruct (dispatch_series_for_one_service malloc name cells rt _ lb' reg'
              Hrep Hto Hsel) as (rt' & Hrun & _ & _ & Hempty).
  eexists _, rt'. split_and!; [done | done | apply rotate_Permutation | done].
Qed.

Lemma web_queue_runtime_rep :
  queue_rep (heap web_queue_runtime) (message_queue (orch web_queue_runtime))
    web_queue_cells.
Proof.
  split_and!.
  - simpl. split_and!; try done; try (by vm_compute).
  - simpl. apply (bool_decide_unpack _). by vm_compute.
  - done.
Qed.

Lemma dispatcher_spreads_messages_witness :
  ∃ targets rt',
    run first_free (replicate (length web_queue_cells) Dispatch)
      web_queue_runtime
    = Done (zip_with (λ p c, Dispatched (Delivered p c.2)) targets
              web_queue_cells, rt') ∧
    targets
    = rotate (Z.to_nat (current_index (load_balancer (orch web_queue_runtime))))
        (collect_instances "web" 0
           (services (registry (orch web_queue_runtime)))) ∧
    targets ≡ₚ collect_instances "web" 0
                 (services (registry (orch web_queue_runtime))) ∧
    queue_rep (heap rt') (message_queue (orch rt')) [].
Proof.
  apply (dispatcher_spreads_messages first_free web_queue_runtime "web"
           web_queue_cells).
  - exact web_queue_runtime_rep.
  - intros c Hc. unfold web_queue_cells in Hc.
    apply elem_of_cons in Hc as [->|Hc]; [done|].
    apply elem_of_cons in Hc as [->|Hc]; [done|].
    by apply list_elem_of_singleton in Hc as ->.
  - reflexivity.
  - discriminate.
  - reflexivity.
  - simpl. lia.
  - vm_compute. discriminate.
Defined.

Example three_messages_three_instances :
  fst <$> run first_free [Dispatch; Dispatch; Dispatch] web_queue_runtime
  = Done [Dispatched (Delivered 1 (mkMessage "cart" "web" "m1" 5 2));
          Dispatched (Delivered 2 (mkMessage "cart" "web" "m2" 5 3));
          Dispatched (Delivered 0 (mkMessage "stock" "web" "m3" 5 NULL))].
Proof. vm_compute. reflexivity. Qed.

(** ** Registering, then discovering *)

Lemma collect_instances_shift (name : string) (nodes : list ServiceNode)
    (current : nat) :
  collect_instances name (S current) nodes
  = S <$> collect_instances name current nodes.
Proof.
  revert current. induction nodes as [|n rest IH]; intros current; simpl.
  - done.
  - destruct (is_instance name n); simpl; by rewrite IH.
Qed.

(** X16: a service is discoverable as soon as it is registered.  Under
    round robin (with room in the counter) and under least connections,
    when a name has no healthy instance, registering it and then
    discovering it returns the node just registered: the node at the head
    of the registry, with the host and port given, health 1, and its load
    counted up from 0 to 1. *)
Theorem register_then_discover
    (rt : Runtime) (name hst : string) (prt : Z) :
  strategy (load_balancer (orch rt)) = LB_ROUND_ROBIN
  ∨ strategy (load_balancer (orch rt)) = LB_LEAST_CONNECTIONS →
  counter_room 1 (load_balancer (orch rt)) →
  collect_instances name 0 (services (registry (orch rt))) = [] →
  ∃ id o',
    eghact_discover_service
      (orch (eghact_register_service rt name hst prt).2) name
    = Done (Some 0%nat, o') ∧
    services (registry o')
    = mkServiceNode id name hst prt 1 1 :: services (registry (orch rt)).
Proof.
  intros Hstrat Hroom Hnone.
  set (rt1 := (eghact_register_service rt name hst prt).2).
  assert (collect_instances name 0 (services (registry (orch rt1))) = [0%nat])
    as Hpool.
  { simpl. unfold is_instance. simpl. rewrite String.eqb_refl. simpl.
    by rewrite collect_instances_shift, Hnone. }
  destruct (select_service_instance_available 0 (load_balancer (orch rt1))
              name (registry (orch rt1)))
    as (p & lb' & reg' & Hsel & _ & _ & _); [done | done | by rewrite Hpool |].
  pose proof Hsel as Hp.
  apply select_service_instance_Some in Hp as (Hin & n & Hn & ->).
  rewrite Hpool in Hin. apply list_elem_of_singleton in Hin as ->.
  simpl in Hn. injection Hn as <-.
  exists (fresh (issued rt)), (mkEghactOrchestrator
    (mkServiceRegistry
       (<[0%nat := set_load (mkServiceNode (fresh (issued rt)) name hst prt 1 0)
                     (int_incr 0)]> (services (registry (orch rt1))))
       (num_services (registry (orch rt1))))
    (message_queue (orch rt1)) lb').
  unfold eghact_discover_service. rewrite Hsel. simpl.
  split; [done | reflexivity].
Qed.

Lemma register_then_discover_witness :
  ∃ id o',
    eghact_discover_service
      (orch (eghact_register_service two_api_runtime "web" "10.0.1.1" 80).2)
      "web"
    = Done (Some 0%nat, o') ∧
    services (registry o')
    = mkServiceNode id "web" "10.0.1.1" 80 1 1
      :: services (registry (orch two_api_runtime)).
Proof.
  apply (register_then_discover two_api_runtime "web" "10.0.1.1" 80).
  - by left.
  - intros _. vm_compute. split; discriminate.
  - reflexivity.
Defined.

(** ** What the dispatcher delivers to *)

(** X17: the dispatcher delivers only to a healthy instance of the
    destination.  When a turn calls [deliver_message], the message is the
    one that was at the head of the queue, the target is a node of the
    registry whose name is the destination of the message and whose health
    status is 1 at the time of the selection, and the cell of the message
    is off the heap afterwards. *)
Theorem dispatcher_delivers_to_healthy_destination
    (rt rt' : Runtime) (p : nat) (m : Message) :
  message_dispatcher_iteration rt = Done (Delivered p m, rt') →
  heap rt !! head (message_queue (orch rt)) = Some m ∧
  heap rt' = delete (head (message_queue (orch rt))) (heap rt) ∧
  ∃ n, services (registry (orch rt)) !! p = Some n ∧
       service_name n = to_service m ∧ health_status n = 1.
Proof.
  unfold message_dispatcher_iteration.
  destruct (head _ =? NULL); [done|].
  unfold dequeue.
  destruct (heap rt !! head (message_queue (orch rt))) as [m0|] eqn:Hm0;
    [|done].
  simpl. unfold eghact_discover_service. simpl.
  destruct (select_service_instance _ _ _) as [[[sel lb'] reg']|] eqn:Hsel;
    [|done].
  simpl. destruct sel as [q|]; [|done]. intros [= -> -> <-].
  split_and!; [done | done |].
  apply select_service_instance_frame in Hsel
    as (_ & _ & (n & Hn & Hname & Hh & _) & _).
  by exists n.
Qed.

Lemma dispatcher_delivers_to_healthy_destination_witness :
  heap web_queue_runtime !! head (message_queue (orch web_queue_runtime))
  = Some (mkMessage "cart" "web" "m1" 5 2) ∧
  heap
    (mkRuntime
       (mkEghactOrchestrator
          (mkServiceRegistry
             [mkServiceNode "2" "web" "10.0.1.3" 80 1 2;
              mkServiceNode "1" "web" "10.0.1.2" 80 1 3;
              mkServiceNode "0" "web" "10.0.1.1" 80 1 3]
             3)
          (mkMessageQueue 2 3) (mkLoadBalancer LB_ROUND_ROBIN 8))
       (delete 1 (heap web_queue_runtime)) (issued web_queue_runtime))
  = delete (head (message_queue (orch web_queue_runtime)))
      (heap web_queue_runtime) ∧
  ∃ n, services (registry (orch web_queue_runtime)) !! 1%nat = Some n ∧
       service_name n = to_service (mkMessage "cart" "web" "m1" 5 2) ∧
       health_status n = 1.
Proof.
  apply (dispatcher_delivers_to_healthy_destination web_queue_runtime _ 1
           (mkMessage "cart" "web" "m1" 5 2)).
  vm_compute. reflexivity.
Defined.
